(** * Project Daily Snapshot: a shallow embedding of [scripts/update-projects.js]

    The script fetches the repositories of one GitHub account, keeps those
    that pass a static filter and for which one of three detection tiers
    finds a published Pages site, formats them, sorts them and writes them as
    JSON.  This file embeds the script function by function and proves the
    properties its specification states.

    Conventions of the embedding:
    - JavaScript strings are [string] (the names, URLs and timestamps GitHub
      returns are ASCII); template literals are written with [+:+].
    - A nullable JavaScript value is an [option]; [null] and [undefined] are
      both [None] (the script only ever tests them for truthiness).
    - Integral JavaScript numbers are [Z]; a number that may be [NaN] is a
      [jsnum].
    - A promise is a computation in the monad [M]: it reads the answers of the
      outside world from a [World], appends what it does to a trace of
      [Event]s, and either resolves with a value or rejects with an [Error].
      [await] is bind, [try]/[catch] is [try_catch]. *)

From Stdlib Require Import ZArith Lia Ascii String DecimalString Sorted Permutation.
From stdpp Require Import base list strings.

Open Scope string_scope.
Open Scope Z_scope.
Open Scope list_scope.

(** ** The parts of the JavaScript runtime the script relies on *)

Module JS.

(** [ToBoolean], the test behind [if (x)], [!x], [x && y] and [x || y]. *)
Class Truthy (A : Type) := truthy : A → bool.

#[global] Instance truthy_bool : Truthy bool := fun b => b.

(** The empty string is falsy, every other string is truthy. *)
#[global] Instance truthy_string : Truthy string :=
  fun s => match s with EmptyString => false | String _ _ => true end.

(** [null]/[undefined] are falsy, otherwise the value decides. *)
#[global] Instance truthy_nullable {A} `{Truthy A} : Truthy (option A) :=
  fun o => match o with None => false | Some a => truthy a end.

(** Every array is truthy, the empty one too. *)
#[global] Instance truthy_array {A} : Truthy (list A) := fun _ => true.

(** [a || b]: [a] when it is truthy, [b] otherwise. *)
Definition or {A} `{Truthy A} (a b : A) : A := if truthy a then a else b.

(** A number that may be [NaN] (the result of [parseInt], of parsing a
    date, of subtracting dates). *)
Inductive jsnum := Num (z : Z) | NaN.

(** [x - y] *)
Definition sub (x y : jsnum) : jsnum :=
  match x, y with
  | Num a, Num b => Num (a - b)
  | _, _ => NaN
  end.

(** [x < y]; any comparison with [NaN] is false. *)
Definition lt (x y : jsnum) : bool :=
  match x, y with
  | Num a, Num b => a <? b
  | _, _ => false
  end.

(** [String(n)] for an integral number. *)
Definition showZ (n : Z) : string := NilZero.string_of_int (Z.to_int n).

(** [s.includes(needle)]: [needle] occurs at some position of [s]. *)
Fixpoint includes (s needle : string) : bool :=
  if String.prefix needle s then true
  else match s with
       | EmptyString => false
       | String _ s' => includes s' needle
       end.

(** [/lit$/.test(s)] for a regular expression that is a literal followed by
    the end-of-input anchor (no flags): the search tries every start
    position from the left and succeeds where the literal is followed by the
    end of [s]. *)
Fixpoint test_literal_at_end (lit s : string) : bool :=
  if String.eqb s lit then true
  else match s with
       | EmptyString => false
       | String _ s' => test_literal_at_end lit s'
       end.

(** [patterns.some(p => p.test(s))] *)
Definition some {A} (f : A → bool) (l : list A) : bool := existsb f l.

(** An object with string values is the list of its own properties in the
    order of their creation. *)
Definition object : Type := list (string * string).

Definition has_key (o : object) (key : string) : bool :=
  existsb (fun p => String.eqb (fst p) key) o.

(** [o[key] = value]: an existing property keeps its place and takes the
    new value, a new property goes last. *)
Definition set_property (o : object) (p : string * string) : object :=
  if has_key o (fst p)
  then map (fun q => if String.eqb (fst q) (fst p) then p else q) o
  else o ++ [p].

Definition is_digit (c : ascii) : bool :=
  (48 <=? nat_of_ascii c)%nat && (nat_of_ascii c <=? 57)%nat.

Fixpoint digits_value (s : string) (acc : N) : N :=
  match s with
  | EmptyString => acc
  | String c s' => digits_value s' (10 * acc + N.of_nat (nat_of_ascii c - 48))%N
  end.

Fixpoint all_digits (s : string) : bool :=
  match s with
  | EmptyString => true
  | String c s' => is_digit c && all_digits s'
  end.

(** A property key that is an array index: the canonical decimal form of an
    integer below [2^32 - 1]. *)
Definition array_index (key : string) : option N :=
  match key with
  | EmptyString => None
  | String c rest =>
      if all_digits key &&
         (negb (Nat.eqb (nat_of_ascii c) 48) ||
          match rest with EmptyString => true | _ => false end) &&
         (digits_value key 0 <? 4294967295)%N
      then Some (digits_value key 0)
      else None
  end.

(** Insertion of an index property among index properties in ascending
    order. *)
Fixpoint insert_index (i : N) (p : string * string)
    (sorted : list (N * (string * string))) : list (N * (string * string)) :=
  match sorted with
  | [] => [ (i, p) ]
  | (j, q) :: rest => if (i <? j)%N then (i, p) :: (j, q) :: rest
                      else (j, q) :: insert_index i p rest
  end.

(** The own properties of an object in the order JavaScript enumerates
    them: array indices in ascending order first, then the other keys in the
    order of their creation. *)
Definition own_properties (o : object) : object :=
  map snd
    (fold_left (fun sorted p =>
                  match array_index (fst p) with
                  | Some i => insert_index i p sorted
                  | None => sorted
                  end) o []) ++
  List.filter (fun p => match array_index (fst p) with
                        | Some _ => false
                        | None => true
                        end) o.

(** The object literal [{ ...base, ...extra }], where [base] are the
    properties written out before the spread of [extra]. *)
Definition spread (base extra : object) : object :=
  own_properties (fold_left set_property extra base).

Section Sort.
Context {A : Type}.
(** The comparator of [Array.prototype.sort]. *)
Variable comparefn : A → A → jsnum.

(** [SortCompare]: a [NaN] result counts as [+0]; [x] sorts before [y]
    exactly when the result is negative. *)
Definition before (x y : A) : bool :=
  match comparefn x y with
  | Num v => v <? 0
  | NaN => false
  end.

(** One insertion: [x] goes in front of the first element it sorts
    before, so after every element it does not sort before. *)
Fixpoint sort_insert (x : A) (sorted : list A) : list A :=
  match sorted with
  | [] => [x]
  | y :: rest => if before x y then x :: y :: rest
                 else y :: sort_insert x rest
  end.

(** The stable sorted arrangement of [l], by insertion from the left. *)
Definition stable_sort (l : list A) : list A :=
  fold_left (fun sorted x => sort_insert x sorted) l [].

(** [a =CF b], [a <CF b] and [a >CF b] of ECMAScript. *)
Definition eqCF (a b : A) : bool :=
  match comparefn a b with Num v => v =? 0 | NaN => false end.
Definition ltCF (a b : A) : bool :=
  match comparefn a b with Num v => v <? 0 | NaN => false end.
Definition gtCF (a b : A) : bool :=
  match comparefn a b with Num v => 0 <? v | NaN => false end.

(** [comparefn] is a consistent comparator for the values of [l], as
    ECMAScript defines it: it never returns [NaN] on them, and [=CF] is
    reflexive, symmetric and transitive, [<CF] and [>CF] are transitive. *)
Definition consistent (l : list A) : bool :=
  forallb (fun a =>
    eqCF a a &&
    forallb (fun b =>
      match comparefn a b with Num _ => true | NaN => false end &&
      implb (eqCF a b) (eqCF b a) &&
      forallb (fun c =>
        implb (eqCF a b && eqCF b c) (eqCF a c) &&
        implb (ltCF a b && ltCF b c) (ltCF a c) &&
        implb (gtCF a b && gtCF b c) (gtCF a c)) l) l) l.

(** [array.sort(comparefn)].  For a consistent comparator ECMAScript
    requires the sorted order and stability, which leaves one array: the
    stable sorted arrangement ([stable_sort_unique] below).  For any other
    comparator the order is implementation-defined: the engine picks some
    rearrangement, [unspecified]. *)
Definition sort (unspecified : ∀ l : list A, { l' : list A | l' ≡ₚ l })
    (l : list A) : list A :=
  if consistent l then stable_sort l else proj1_sig (unspecified l).
End Sort.

End JS.

Import JS.

(** ** Data model *)

(** A repository record of the list endpoint, with the fields the script
    reads. *)
Module Repo.
Record t := mk {
  name : string;
  description : option string;
  html_url : string;
  language : option string;
  stargazers_count : Z;
  forks_count : Z;
  updated_at : string;
  created_at : string;
  topics : option (list string);
  homepage : option string;
  fork : bool;
  archived : bool
}.
End Repo.

(** An element of the output array, as [formatProjectData] builds it. *)
Module Project.
Record t := mk {
  name : string;
  description : option string;
  url : string;
  github : string;
  language : option string;
  stars : Z;
  forks : Z;
  updatedAt : string;
  createdAt : string;
  topics : option (list string);
  homepage : option string
}.
End Project.

(** The [config] object (lines 23-30). *)
Record Config := {
  username : string;
  token : string;
  outputFile : string;
  filterForks : bool;
  filterArchived : bool;
  minStars : jsnum       (* [parseInt(..., 10)]: [NaN] when not numeric *)
}.

(** [REPOS_API] (line 33) *)
Definition REPOS_API (config : Config) : string :=
  "https://api.github.com/users/" +:+ username config +:+
  "/repos?per_page=100&type=owner&sort=updated".

(** ** Pure functions of the script *)

Section Pure.
Variable config : Config.

(** The [pagesPatterns] array of [likelyHasPages]: each regular expression
    is a literal anchored at the end of the input. *)
Definition pagesPatterns : list string :=
  [ ".github.io"; "-homepage"; "-portfolio"; "-website"; "-site"; "-demo";
    "-docs" ].

(** [likelyHasPages] (lines 116-128) *)
Definition likelyHasPages (repo : Repo.t) : bool :=
  JS.some (fun pattern => test_literal_at_end pattern (Repo.name repo))
          pagesPatterns.

(** [formatProjectData] (lines 133-155) *)
Definition formatProjectData (repo : Repo.t) : Project.t :=
  let pagesUrl :=
    if includes (Repo.name repo) (username config +:+ ".github.io")
    then "https://" +:+ username config +:+ ".github.io/"
    else "https://" +:+ username config +:+ ".github.io/" +:+
         Repo.name repo +:+ "/" in
  {| Project.name := Repo.name repo;
     Project.description :=
       JS.or (Repo.description repo) (Some "A GitHub project");
     Project.url := pagesUrl;
     Project.github := Repo.html_url repo;
     Project.language := JS.or (Repo.language repo) (Some "Various");
     Project.stars := Repo.stargazers_count repo;
     Project.forks := Repo.forks_count repo;
     Project.updatedAt := Repo.updated_at repo;
     Project.createdAt := Repo.created_at repo;
     Project.topics := JS.or (Repo.topics repo) (Some []);
     Project.homepage := JS.or (Repo.homepage repo) None |}.

(** The three filter tests at the head of the loop body of [main]
    (lines 181-192): [true] when the record is skipped with [continue]. *)
Definition main_skips (repo : Repo.t) : bool :=
  if filterForks config && Repo.fork repo then true
  else if filterArchived config && Repo.archived repo then true
  else if JS.lt (Num (Repo.stargazers_count repo)) (minStars config) then true
  else false.

End Pure.

(** ** The outside world and the effects of the script *)

Inductive Method := GET | HEAD.

(** A request handed to [https.get]: the URL and the [options] object. *)
Record Request := {
  req_method : Method;
  req_url : string;
  req_headers : list (string * string);
  req_timeout : option Z           (* milliseconds; [None]: no timeout set *)
}.

(** What a run does to the outside world, in order: a request that
    [https.get] sent, a call of [fs.mkdirSync(dir, { recursive })] that
    returned (with [recursive] it creates [dir] and every missing ancestor),
    a call of [fs.writeFileSync] that returned.  Console output is not
    recorded. *)
Inductive Event :=
| Requested (r : Request)
| MadeDir (dir : string) (recursive : bool)
| WroteFile (path content : string).

Definition Trace := list Event.

(** A JavaScript [Error] object. *)
Inductive Error := mkError (message : string).

Definition message (e : Error) : string := let 'mkError m := e in m.

(** What the script can tell of a parsed JSON body: whether it is an array
    of repository records. *)
Inductive Json := JArray (repos : list Repo.t) | JOther.

(** What [https.get] does in [httpsGet]: it throws before any request is
    sent (a URL or a header it refuses), or it sends the request and one
    handler fires: ['end'] on the response, with the status code, the
    accumulated body and what [JSON.parse] makes of it (a value, or the
    [SyntaxError] it throws), or ['error'] on the request. *)
Inductive GetOutcome :=
| GetThrows (e : Error)
| GetEnd (statusCode : Z) (data : string) (parsed : Error + Json)
| GetError (e : Error).

(** What [https.get] does in [testPagesURL]: it throws before any request
    is sent (an account name that makes the host of the URL invalid), or it
    sends the request and one handler fires first: the response callback,
    ['error'], or ['timeout']. *)
Inductive HeadOutcome :=
| HeadThrows (e : Error)
| HeadResponse (statusCode : Z)
| HeadError (e : Error)
| HeadTimeout.

(** Everything the script does not decide itself.  The answers of the
    network and of the file system may depend on all that happened before
    (the trace so far).  One assumption on Node is built in: every request
    that is sent settles, that is, one of the handlers the script installs
    fires.  [engine_sort] is the rearrangement the engine's
    [Array.prototype.sort] makes of an array for which the comparator of
    [main] is not consistent. *)
Record World := {
  https_get : Trace → Request → GetOutcome;
  https_head : Trace → Request → HeadOutcome;
  Date_parse : string → jsnum;            (* [new Date(s)] as a number *)
  engine_sort : ∀ l : list Project.t, { l' : list Project.t | l' ≡ₚ l };
  path_resolve : string → string;
  path_dirname : string → string;
  fs_existsSync : Trace → string → bool;
  fs_mkdirSync : Trace → string → bool → option Error;  (* [Some e]: throws *)
  fs_writeFileSync : Trace → string → string → option Error
}.

(** Promises: state (the trace) and exceptions (rejection). *)
Definition M (A : Type) : Type := Trace → Trace * (Error + A).

Definition ret {A} (a : A) : M A := fun t => (t, inr a).

Definition throw {A} (e : Error) : M A := fun t => (t, inl e).

Definition bind {A B} (m : M A) (k : A → M B) : M B :=
  fun t => match m t with
           | (t', inr a) => k a t'
           | (t', inl e) => (t', inl e)
           end.

Definition try_catch {A} (m : M A) (handler : Error → M A) : M A :=
  fun t => match m t with
           | (t', inr a) => (t', inr a)
           | (t', inl e) => handler e t'
           end.

Declare Scope promise_scope.
Delimit Scope promise_scope with promise.
Notation "x <- m ;; k" := (bind m (fun x => k))
  (at level 20, m at level 99, k at level 200) : promise_scope.
Notation "' pat <- m ;; k" := (bind m (fun x => match x with pat => k end))
  (at level 20, pat pattern, m at level 99, k at level 200) : promise_scope.
Open Scope promise_scope.

(** ** [JSON.stringify(projects, null, 2)] *)

Module JSON.

Definition newline : string := String "010" EmptyString.
Definition dquote : string := String "034" EmptyString.
Definition backslash : string := String "092" EmptyString.

Definition hex_digit (n : nat) : ascii :=
  nth n [ "0"; "1"; "2"; "3"; "4"; "5"; "6"; "7"; "8"; "9";
          "a"; "b"; "c"; "d"; "e"; "f" ]%char "0"%char.

(** One character of [QuoteJSONString]. *)
Definition escape_char (c : ascii) : string :=
  let n := nat_of_ascii c in
  if Nat.eqb n 34 then backslash +:+ dquote
  else if Nat.eqb n 92 then backslash +:+ backslash
  else if Nat.eqb n 8 then backslash +:+ "b"
  else if Nat.eqb n 12 then backslash +:+ "f"
  else if Nat.eqb n 10 then backslash +:+ "n"
  else if Nat.eqb n 13 then backslash +:+ "r"
  else if Nat.eqb n 9 then backslash +:+ "t"
  else if Nat.ltb n 32 then
    backslash +:+ "u00" +:+
    String (hex_digit (Nat.div n 16)) (String (hex_digit (Nat.modulo n 16)) EmptyString)
  else String c EmptyString.

Fixpoint escape (s : string) : string :=
  match s with
  | EmptyString => EmptyString
  | String c s' => escape_char c +:+ escape s'
  end.

Definition quote (s : string) : string := dquote +:+ escape s +:+ dquote.

Definition nullable (o : option string) : string :=
  match o with Some s => quote s | None => "null" end.

(** An array of already serialised elements whose closing bracket is
    indented by [stepback]. *)
Definition array (stepback : string) (elements : list string) : string :=
  match elements with
  | [] => "[]"
  | _ => let indent := stepback +:+ "  " in
         "[" +:+ newline +:+ indent +:+
         String.concat ("," +:+ newline +:+ indent) elements +:+
         newline +:+ stepback +:+ "]"
  end.

Definition member (key value : string) : string := quote key +:+ ": " +:+ value.

(** A project object, as an element of the top-level array. *)
Definition project (p : Project.t) : string :=
  let stepback := "  " in
  let indent := stepback +:+ "  " in
  "{" +:+ newline +:+ indent +:+
  String.concat ("," +:+ newline +:+ indent)
    [ member "name" (quote (Project.name p));
      member "description" (nullable (Project.description p));
      member "url" (quote (Project.url p));
      member "github" (quote (Project.github p));
      member "language" (nullable (Project.language p));
      member "stars" (showZ (Project.stars p));
      member "forks" (showZ (Project.forks p));
      member "updatedAt" (quote (Project.updatedAt p));
      member "createdAt" (quote (Project.createdAt p));
      member "topics"
        (match Project.topics p with
         | Some l => array indent (map quote l)
         | None => "null"
         end);
      member "homepage" (nullable (Project.homepage p)) ] +:+
  newline +:+ stepback +:+ "}".

Definition stringify (projects : list Project.t) : string :=
  array EmptyString (map project projects).

End JSON.

(** ** The effectful functions of the script *)

Section Script.
Variable W : World.
Variable config : Config.

(** [httpsGet] (lines 38-64).  A throw of [https.get] inside the executor
    rejects the promise. *)
Definition httpsGet (url : string) (headers : JS.object) : M Json :=
  fun t =>
    let options :=
      {| req_method := GET;
         req_url := url;
         req_headers :=
           JS.spread [ ("User-Agent", "Project-Daily-Snapshot");
                       ("Accept", "application/vnd.github.v3+json") ]
                     headers;
         req_timeout := None |} in
    let t' := t ++ [Requested options] in
    match https_get W t options with
    | GetThrows e => (t, inl e)
    | GetEnd statusCode data parsed =>
        if (200 <=? statusCode) && (statusCode <? 300) then
          match parsed with
          | inr json => (t', inr json)
          | inl e =>
              (t', inl (mkError ("Failed to parse JSON: " +:+ message e)))
          end
        else
          (t', inl (mkError ("HTTP " +:+ showZ statusCode +:+ ": " +:+ data)))
    | GetError e => (t', inl e)
    end.

(** [hasGitHubPagesAPI] (lines 69-83) *)
Definition hasGitHubPagesAPI (repoName : string) : M bool :=
  if negb (truthy (token config)) then ret false
  else
    try_catch
      (let headers := [ ("Authorization", "Bearer " +:+ token config) ] in
       response <- httpsGet ("https://api.github.com/repos/" +:+ username config +:+
                      "/" +:+ repoName +:+ "/pages") headers ;;
       ret true)
      (fun error => ret false).

(** [testPagesURL] (lines 88-110): the promise is resolved by whichever
    handler fires first; it is rejected when [https.get] throws inside the
    executor. *)
Definition testPagesURL (repoName : string) : M bool :=
  fun t =>
    let pagesUrl :=
      "https://" +:+ username config +:+ ".github.io/" +:+ repoName +:+ "/" in
    let options :=
      {| req_method := HEAD;
         req_url := pagesUrl;
         req_headers := [ ("User-Agent", "Project-Daily-Snapshot") ];
         req_timeout := Some 5000 |} in
    let t' := t ++ [Requested options] in
    match https_head W t options with
    | HeadThrows e => (t, inl e)
    | HeadResponse statusCode =>
        (t', inr ((200 <=? statusCode) && (statusCode <? 400)))
    | HeadError _ => (t', inr false)
    | HeadTimeout => (t', inr false)
    end.

(** The Pages check inside the loop of [main] (lines 196-227): the values
    of [hasPages] and [detectionMethod] once the three methods are through. *)
Definition main_checkPages (repo : Repo.t) : M (bool * string) :=
  let hasPages := false in
  let detectionMethod := EmptyString in
  (* Method 1: Try GitHub Pages API (requires token) *)
  '(hasPages, detectionMethod) <-
    (if truthy (token config) then
       try_catch
         (hasPages <- hasGitHubPagesAPI (Repo.name repo) ;;
          ret (hasPages, if hasPages then "API" else "API (not found)"))
         (fun e => ret (hasPages, "API error: " +:+ message e))
     else ret (hasPages, detectionMethod)) ;;
  (* Method 2: Test URL directly *)
  '(hasPages, detectionMethod) <-
    (if negb hasPages then
       try_catch
         (hasPages <- testPagesURL (Repo.name repo) ;;
          ret (hasPages,
               if hasPages then "URL test" else "URL test (not found)"))
         (fun e => ret (hasPages, "URL test error: " +:+ message e))
     else ret (hasPages, detectionMethod)) ;;
  (* Method 3: Check naming patterns (last resort) *)
  if negb hasPages && likelyHasPages repo
  then ret (true, "Pattern match")
  else ret (hasPages, detectionMethod).

(** One iteration of the [for] loop of [main] (lines 179-236): the
    [projects] array after it. *)
Definition main_loop_body (repo : Repo.t) (projects : list Project.t)
  : M (list Project.t) :=
  if main_skips config repo then ret projects
  else
    '(hasPages, detectionMethod) <- main_checkPages repo ;;
    if (hasPages : bool)
    then ret (projects ++ [formatProjectData config repo])
    else ret projects.

(** The [for (const repo of repos)] loop of [main]. *)
Fixpoint main_loop (repos : list Repo.t) (projects : list Project.t)
  : M (list Project.t) :=
  match repos with
  | [] => ret projects
  | repo :: rest =>
      projects <- main_loop_body repo projects ;;
      main_loop rest projects
  end.

(** The comparator handed to [projects.sort] (lines 239-244). *)
Definition main_compare (a b : Project.t) : jsnum :=
  if negb (Project.stars b =? Project.stars a)
  then Num (Project.stars b - Project.stars a)
  else JS.sub (Date_parse W (Project.updatedAt b))
              (Date_parse W (Project.updatedAt a)).

(** [repos.map(...)] and [for ... of repos] need an array: on any other
    value the first of them throws a [TypeError]. *)
Definition as_array (json : Json) : M (list Repo.t) :=
  match json with
  | JArray repos => ret repos
  | JOther => throw (mkError "repos.map is not a function")
  end.

(** Lines 165-244 of [main]: fetch, loop, sort. *)
Definition main_projects : M (list Project.t) :=
  let headers :=
    if truthy (token config)
    then [ ("Authorization", "Bearer " +:+ token config) ]
    else [] in
  repos <- httpsGet (REPOS_API config) headers ;;
  repos <- as_array repos ;;
  projects <- main_loop repos [] ;;
  ret (JS.sort main_compare (engine_sort W) projects).

Definition existsSync (dir : string) : M bool :=
  fun t => (t, inr (fs_existsSync W t dir)).

Definition mkdirSync (dir : string) (recursive : bool) : M unit :=
  fun t => match fs_mkdirSync W t dir recursive with
           | None => (t ++ [MadeDir dir recursive], inr tt)
           | Some e => (t, inl e)
           end.

Definition writeFileSync (path content : string) : M unit :=
  fun t => match fs_writeFileSync W t path content with
           | None => (t ++ [WroteFile path content], inr tt)
           | Some e => (t, inl e)
           end.

(** Lines 246-255 of [main]: write the artifact. *)
Definition main_write (projects : list Project.t) : M unit :=
  let outputPath := path_resolve W (outputFile config) in
  let outputDir := path_dirname W outputPath in
  dirExists <- existsSync outputDir ;;
  made <- (if negb dirExists then mkdirSync outputDir true else ret tt) ;;
  writeFileSync outputPath (JSON.stringify projects).

(** The [try] block of [main]. *)
Definition main_try : M unit :=
  projects <- main_projects ;;
  main_write projects.

(** [main] (lines 160-279), run as the script runs it, from the empty
    trace: what the run did and the exit status of the process, [1] from
    [process.exit(1)] in the [catch] block and [0] otherwise. *)
Definition main : Trace * Z :=
  match main_try [] with
  | (t, inr _) => (t, 0)
  | (t, inl error) => (t, 1)
  end.

End Script.

(** ** Vocabulary of the specification *)

(** [s] ends with [suffix]. *)
Definition ends_with (suffix s : string) : Prop :=
  ∃ front, s = front +:+ suffix.

(** [s] contains [needle] as a substring. *)
Definition contains (needle s : string) : Prop :=
  ∃ front back, s = front +:+ needle +:+ back.

(** The six suffixes the specification lists for the pattern tier. *)
Definition spec_suffixes : list string :=
  [ "-homepage"; "-portfolio"; "-website"; "-site"; "-demo"; "-docs" ].

(** The pattern tier as the specification words it: the name is exactly
    [{account}.github.io] or ends with one of the six suffixes. *)
Definition spec_pattern_match (config : Config) (repo : Repo.t) : Prop :=
  Repo.name repo = username config +:+ ".github.io" ∨
  ∃ suffix, suffix ∈ spec_suffixes ∧ ends_with suffix (Repo.name repo).

(** The account's root Pages URL. *)
Definition root_url (config : Config) : string :=
  "https://" +:+ username config +:+ ".github.io/".

(** The fields the specification says the formatter passes through
    unchanged, homepage included, and the default of topics. *)
Definition spec_passthrough (repo : Repo.t) (p : Project.t) : Prop :=
  Project.name p = Repo.name repo ∧
  Project.github p = Repo.html_url repo ∧
  Project.stars p = Repo.stargazers_count repo ∧
  Project.forks p = Repo.forks_count repo ∧
  Project.updatedAt p = Repo.updated_at repo ∧
  Project.createdAt p = Repo.created_at repo ∧
  Project.homepage p = Repo.homepage repo ∧
  Project.topics p = Some (default [] (Repo.topics repo)).

(** A field is absent or empty. *)
Definition absent_or_empty (field : option string) : Prop :=
  field = None ∨ field = Some EmptyString.

(** The filter rejects, as the specification words it. *)
Definition spec_rejects (config : Config) (repo : Repo.t) : Prop :=
  (filterForks config = true ∧ Repo.fork repo = true) ∨
  (filterArchived config = true ∧ Repo.archived repo = true) ∨
  (∃ minimum, minStars config = Num minimum ∧
              Repo.stargazers_count repo < minimum).

(** The request of the authenticated API tier for a repository. *)
Definition api_request (config : Config) (repoName : string) : Request :=
  {| req_method := GET;
     req_url := "https://api.github.com/repos/" +:+ username config +:+ "/" +:+
                repoName +:+ "/pages";
     req_headers := [ ("User-Agent", "Project-Daily-Snapshot");
                      ("Accept", "application/vnd.github.v3+json");
                      ("Authorization", "Bearer " +:+ token config) ];
     req_timeout := None |}.

(** The request of the direct probe for a repository. *)
Definition probe_request (config : Config) (repoName : string) : Request :=
  {| req_method := HEAD;
     req_url := "https://" +:+ username config +:+ ".github.io/" +:+
                repoName +:+ "/";
     req_headers := [ ("User-Agent", "Project-Daily-Snapshot") ];
     req_timeout := Some 5000 |}.

(** The request of the initial repository-list fetch. *)
Definition list_request (config : Config) : Request :=
  {| req_method := GET;
     req_url := "https://api.github.com/users/" +:+ username config +:+
                "/repos?per_page=100&type=owner&sort=updated";
     req_headers := [ ("User-Agent", "Project-Daily-Snapshot");
                      ("Accept", "application/vnd.github.v3+json") ] ++
                    match token config with
                    | EmptyString => []
                    | _ => [ ("Authorization", "Bearer " +:+ token config) ]
                    end;
     req_timeout := None |}.

(** A credential is configured. *)
Definition has_credential (config : Config) : bool :=
  match token config with EmptyString => false | _ => true end.

(** A JSON call succeeded: status 2xx with a well-formed body. *)
Definition get_succeeds (o : GetOutcome) : bool :=
  match o with
  | GetEnd status _ (inr _) => (200 <=? status) && (status <? 300)
  | _ => false
  end.

(** A JSON call failed: the request was refused, network error, non-2xx
    status or malformed body. *)
Definition get_fails (o : GetOutcome) : Prop :=
  match o with
  | GetThrows _ => True
  | GetError _ => True
  | GetEnd status _ parsed =>
      ¬ (200 ≤ status < 300) ∨ ∃ e, parsed = inl e
  end.

(** A probe answered with a status code in [200,400). *)
Definition probe_exists (o : HeadOutcome) : Prop :=
  ∃ status, o = HeadResponse status ∧ 200 ≤ status < 400.

Definition probe_existsb (o : HeadOutcome) : bool :=
  match o with
  | HeadResponse status => (200 <=? status) && (status <? 400)
  | _ => false
  end.

(** The three tiers for [repo], when its check starts after [t]: the
    requests each tier sends and whether it detects a site.  The API tier
    runs only with a credential; the probe runs only when the API tier did
    not detect a site, after the calls of the API tier; the pattern tier
    sends nothing.  A tier whose [https.get] throws sends nothing and
    detects nothing. *)
Definition api_calls (W : World) (config : Config) (repo : Repo.t)
    (t : Trace) : Trace :=
  if has_credential config then
    match https_get W t (api_request config (Repo.name repo)) with
    | GetThrows _ => []
    | _ => [ Requested (api_request config (Repo.name repo)) ]
    end
  else [].

Definition api_detects (W : World) (config : Config) (repo : Repo.t)
    (t : Trace) : bool :=
  has_credential config &&
  get_succeeds (https_get W t (api_request config (Repo.name repo))).

(** What [https.get] does with the probe of [repo]. *)
Definition probe_outcome (W : World) (config : Config) (repo : Repo.t)
    (t : Trace) : HeadOutcome :=
  https_head W (t ++ api_calls W config repo t)
    (probe_request config (Repo.name repo)).

Definition probe_calls (W : World) (config : Config) (repo : Repo.t)
    (t : Trace) : Trace :=
  if api_detects W config repo t then []
  else match probe_outcome W config repo t with
       | HeadThrows _ => []
       | _ => [ Requested (probe_request config (Repo.name repo)) ]
       end.

Definition probe_detects (W : World) (config : Config) (repo : Repo.t)
    (t : Trace) : bool :=
  negb (api_detects W config repo t) &&
  probe_existsb (probe_outcome W config repo t).

(** Some detection tier confirms [repo] when its check starts after [t]. *)
Definition confirmed_at (W : World) (config : Config) (repo : Repo.t)
    (t : Trace) : bool :=
  api_detects W config repo t || probe_detects W config repo t ||
  likelyHasPages repo.

(** The diagnostic that names the tier. *)
Definition tier_name (W : World) (config : Config) (repo : Repo.t)
    (t : Trace) : string :=
  if api_detects W config repo t then "API"
  else if probe_detects W config repo t then "URL test"
  else if likelyHasPages repo then "Pattern match"
  else match probe_outcome W config repo t with
       | HeadThrows e => "URL test error: " +:+ message e
       | _ => "URL test (not found)"
       end.

(** The list endpoint answered the first call of the run with [repos]. *)
Definition fetched (W : World) (config : Config) (repos : list Repo.t) : Prop :=
  ∃ status data,
    https_get W [] (list_request config) = GetEnd status data (inr (JArray repos)) ∧
    200 ≤ status < 300.

(** The collection [ps] is what a run hands to the writer. *)
Definition output_of (W : World) (config : Config) (ps : list Project.t) : Prop :=
  ∃ t, main_projects W config [] = (t, inr ps).

(** [x] may stand in front of [y] in an array sorted with [comparefn]: [y]
    does not sort before [x]. *)
Definition in_order {A} (comparefn : A → A → jsnum) (x y : A) : Prop :=
  before comparefn y x = false.

(** Neither of [x] and [y] sorts before the other. *)
Definition equivalent {A} (comparefn : A → A → jsnum) (x y : A) : bool :=
  negb (before comparefn x y) && negb (before comparefn y x).

(** [l'] is a stable sorted arrangement of [l]: a permutation of [l] that is
    sorted and keeps the elements equivalent to an element of [l] in the
    order they have in [l]. *)
Definition stable_sort_of {A} (comparefn : A → A → jsnum) (l l' : list A)
  : Prop :=
  l' ≡ₚ l ∧
  Sorted (in_order comparefn) l' ∧
  ∀ x, x ∈ l →
    List.filter (equivalent comparefn x) l' =
    List.filter (equivalent comparefn x) l.

(** [updatedAt] of [a] is not earlier than that of [b], as time instants. *)
Definition instant_ge (W : World) (a b : Project.t) : Prop :=
  ∃ ta tb, Date_parse W (Project.updatedAt a) = Num ta ∧
           Date_parse W (Project.updatedAt b) = Num tb ∧ tb ≤ ta.

(** The order the specification requires of an adjacent pair. *)
Definition spec_ordered (W : World) (a b : Project.t) : Prop :=
  Project.stars a > Project.stars b ∨
  (Project.stars a = Project.stars b ∧ instant_ge W a b).

(** Every timestamp of the collection is a valid time instant. *)
Definition valid_instants (W : World) (ps : list Project.t) : Prop :=
  Forall (fun p => Date_parse W (Project.updatedAt p) ≠ NaN) ps.

(** The direct probe as the specification words it: it always resolves, to
    true exactly for a status code in [200,400). *)
Definition spec_probe_resolves (W : World) (config : Config)
    (repoName : string) (t : Trace) : Prop :=
  ∃ found : bool,
    snd (testPagesURL W config repoName t) = inr found ∧
    (found = true ↔
     probe_exists (https_head W t (probe_request config repoName))).

(** [https.get] accepts every request. *)
Definition never_throws (W : World) : Prop :=
  (∀ t r e, https_get W t r ≠ GetThrows e) ∧
  (∀ t r e, https_head W t r ≠ HeadThrows e).

(** An event is a network call. *)
Definition is_request (e : Event) : Prop :=
  match e with Requested _ => True | _ => False end.

(** A fetched record that passed the filter and that some detection tier
    confirmed at some point of the run. *)
Definition eligible (W : World) (config : Config) (repo : Repo.t) : Prop :=
  ¬ spec_rejects config repo ∧ ∃ t, confirmed_at W config repo t = true.

(** Every adjacent pair of the collection is in the required order. *)
Definition adjacent_ordered (W : World) (ps : list Project.t) : Prop :=
  ∀ (i : nat) (a b : Project.t),
    ps !! i = Some a → ps !! S i = Some b → spec_ordered W a b.

(** The file system refuses nothing. *)
Definition fs_accepts (W : World) : Prop :=
  (∀ t dir recursive, fs_mkdirSync W t dir recursive = None) ∧
  (∀ t path content, fs_writeFileSync W t path content = None).

(** The run wrote nothing. *)
Definition wrote_nothing (t : Trace) : Prop :=
  ∀ path content, WroteFile path content ∉ t.

(** ** The configuration read from the environment *)

Module Env.

(** What the [config] object literal reads from the process: the
    environment variables ([None]: undefined), the default output path
    [path.join(process.cwd(), 'projects.json')] and [parseInt(s, 10)]. *)
Record Process := {
  env : string → option string;
  default_outputFile : string;
  parseInt10 : string → jsnum
}.

(** [process.env.NAME || fallback] *)
Definition or_string (value : option string) (fallback : string) : string :=
  default fallback (JS.or value (Some fallback)).

(** [process.env.NAME !== 'false'] *)
Definition not_false (value : option string) : bool :=
  match value with
  | Some s => negb (String.eqb s "false")
  | None => true
  end.

(** The [config] object (lines 23-30). *)
Definition config (P : Process) : Config :=
  {| username := or_string (env P "GITHUB_USERNAME") "Chriszhang6";
     token := or_string (env P "GITHUB_TOKEN") EmptyString;
     outputFile := or_string (env P "OUTPUT_FILE") (default_outputFile P);
     filterForks := not_false (env P "FILTER_FORKS");
     filterArchived := not_false (env P "FILTER_ARCHIVED");
     minStars := parseInt10 P (or_string (env P "MIN_STARS") "0") |}.

End Env.

(** ** Vocabulary for whole runs *)

(** The network calls the loop of [main] issues for [repos] when it starts
    after [t], in order: nothing for a record the filter skips, the calls of
    the tiers for every other record. *)
Fixpoint loop_calls (W : World) (config : Config) (repos : list Repo.t)
    (t : Trace) : Trace :=
  match repos with
  | [] => []
  | repo :: rest =>
      if main_skips config repo then loop_calls W config rest t
      else
        let here := api_calls W config repo t ++ probe_calls W config repo t in
        here ++ loop_calls W config rest (t ++ here)
  end.

(** The records the loop of [main] keeps, in order: those the filter does
    not skip and a tier confirms when their check runs. *)
Fixpoint loop_kept (W : World) (config : Config) (repos : list Repo.t)
    (t : Trace) : list Repo.t :=
  match repos with
  | [] => []
  | repo :: rest =>
      if main_skips config repo then loop_kept W config rest t
      else
        let here := api_calls W config repo t ++ probe_calls W config repo t in
        if confirmed_at W config repo t
        then repo :: loop_kept W config rest (t ++ here)
        else loop_kept W config rest (t ++ here)
  end.

(** The fetched records that pass the filter. *)
Definition passing (config : Config) (repos : list Repo.t) : list Repo.t :=
  List.filter (fun repo => negb (main_skips config repo)) repos.

(** The network calls of a trace, in order. *)
Definition requests (t : Trace) : list Request :=
  flat_map (fun e => match e with Requested r => [r] | _ => [] end) t.

(** [s] starts with [prefix]. *)
Definition starts_with (prefix s : string) : Prop :=
  ∃ back, s = prefix +:+ back.

(** The diagnostics a Pages check can end with when it found a site. *)
Definition positive_diagnostics : list string :=
  [ "API"; "URL test"; "Pattern match" ].

(** ** Sample data *)

Module Sample.

Definition config : Config :=
  {| username := "Chriszhang6";
     token := EmptyString;
     outputFile := "projects.json";
     filterForks := true;
     filterArchived := true;
     minStars := Num 0 |}.

Definition config_with_token : Config :=
  {| username := "Chriszhang6";
     token := "ghp_secret";
     outputFile := "projects.json";
     filterForks := true;
     filterArchived := true;
     minStars := Num 2 |}.

Definition repo (name : string) (stars : Z) (updated : string) : Repo.t :=
  {| Repo.name := name;
     Repo.description := None;
     Repo.html_url := "https://github.com/Chriszhang6/" +:+ name;
     Repo.language := Some "JavaScript";
     Repo.stargazers_count := stars;
     Repo.forks_count := 0;
     Repo.updated_at := updated;
     Repo.created_at := "2023-05-01T08:00:00Z";
     Repo.topics := None;
     Repo.homepage := None;
     Repo.fork := false;
     Repo.archived := false |}.

Definition foo_docs : Repo.t := repo "foo-docs" 3 "2024-01-02T00:00:00Z".

Definition root_site : Repo.t :=
  repo "Chriszhang6.github.io" 3 "2024-01-03T00:00:00Z".

(** A Pages repository that belongs to the naming scheme of another
    account. *)
Definition other_site : Repo.t := repo "other.github.io" 0 "2024-01-01T00:00:00Z".

Definition plain : Repo.t := repo "plain" 7 "2024-01-01T00:00:00Z".

(** A repository whose homepage field is the empty string. *)
Definition blank_homepage : Repo.t :=
  {| Repo.name := "blank";
     Repo.description := Some "A tool";
     Repo.html_url := "https://github.com/Chriszhang6/blank";
     Repo.language := None;
     Repo.stargazers_count := 1;
     Repo.forks_count := 0;
     Repo.updated_at := "2024-01-01T00:00:00Z";
     Repo.created_at := "2023-05-01T08:00:00Z";
     Repo.topics := Some [ "cli" ];
     Repo.homepage := Some EmptyString;
     Repo.fork := false;
     Repo.archived := false |}.

Definition archived_bar : Repo.t :=
  {| Repo.name := "bar";
     Repo.description := None;
     Repo.html_url := "https://github.com/Chriszhang6/bar";
     Repo.language := None;
     Repo.stargazers_count := 9;
     Repo.forks_count := 0;
     Repo.updated_at := "2024-01-01T00:00:00Z";
     Repo.created_at := "2023-05-01T08:00:00Z";
     Repo.topics := None;
     Repo.homepage := None;
     Repo.fork := false;
     Repo.archived := true |}.

(** An engine whose sort leaves an array as it is when the comparator is
    not consistent. *)
Definition unsorted (l : list Project.t) : { l' : list Project.t | l' ≡ₚ l } :=
  exist _ l (Permutation_refl l).

(** The three timestamps of the samples, in milliseconds since the epoch. *)
Definition parse_date (s : string) : jsnum :=
  if String.eqb s "2024-01-01T00:00:00Z" then Num 1704067200000
  else if String.eqb s "2024-01-02T00:00:00Z" then Num 1704153600000
  else if String.eqb s "2024-01-03T00:00:00Z" then Num 1704240000000
  else NaN.

(** A world where the list endpoint returns [repos], the Pages endpoint
    answers 404, only the probe of [plain] finds a site and the file system
    refuses nothing. *)
Definition world (repos : list Repo.t) : World :=
  {| https_get := fun t r =>
       if String.eqb (req_url r) (REPOS_API config)
       then GetEnd 200 "[...]" (inr (JArray repos))
       else GetEnd 404 "{...}" (inr JOther);
     https_head := fun t r =>
       if String.eqb (req_url r) "https://Chriszhang6.github.io/plain/"
       then HeadResponse 200
       else HeadTimeout;
     Date_parse := parse_date;
     engine_sort := unsorted;
     path_resolve := fun p => "/work/" +:+ p;
     path_dirname := fun p => "/work";
     fs_existsSync := fun t dir => true;
     fs_mkdirSync := fun t dir recursive => None;
     fs_writeFileSync := fun t path content => None |}.

(** A world whose list endpoint answers 403. *)
Definition rate_limited : World :=
  {| https_get := fun t r => GetEnd 403 "rate limit exceeded" (inr JOther);
     https_head := fun t r => HeadTimeout;
     Date_parse := parse_date;
     engine_sort := unsorted;
     path_resolve := fun p => "/work/" +:+ p;
     path_dirname := fun p => "/work";
     fs_existsSync := fun t dir => true;
     fs_mkdirSync := fun t dir recursive => None;
     fs_writeFileSync := fun t path content => None |}.

(** A fetched list and the collection a run makes of it in [world]. *)
Definition repos : list Repo.t := [ foo_docs; archived_bar; plain; root_site ].

Definition snapshot : list Project.t :=
  [ formatProjectData config plain;
    formatProjectData config root_site;
    formatProjectData config foo_docs ].

End Sample.

(** ** Further sample data *)

Module Scenario.

(** Two records that tie on stars and on the instant of their update. *)
Definition tied : list Repo.t :=
  [ Sample.repo "x-site" 2 "2024-01-01T00:00:00Z";
    Sample.repo "y-site" 2 "2024-01-01T00:00:00Z";
    Sample.repo "z-site" 5 "2024-01-02T00:00:00Z" ].

(** A world whose list endpoint answers 200 with a JSON object. *)
Definition not_an_array : World :=
  {| https_get := fun t r => GetEnd 200 "{}" (inr JOther);
     https_head := fun t r => HeadTimeout;
     Date_parse := Sample.parse_date;
     engine_sort := Sample.unsorted;
     path_resolve := fun p => "/work/" +:+ p;
     path_dirname := fun p => "/work";
     fs_existsSync := fun t dir => true;
     fs_mkdirSync := fun t dir recursive => None;
     fs_writeFileSync := fun t path content => None |}.

(** A world like [Sample.world] where the output directory is missing. *)
Definition fresh_directory (repos : list Repo.t) : World :=
  {| https_get := https_get (Sample.world repos);
     https_head := https_head (Sample.world repos);
     Date_parse := Sample.parse_date;
     engine_sort := Sample.unsorted;
     path_resolve := fun p => "/work/out/" +:+ p;
     path_dirname := fun p => "/work/out";
     fs_existsSync := fun t dir => false;
     fs_mkdirSync := fun t dir recursive => None;
     fs_writeFileSync := fun t path content => None |}.

(** A world where the Pages endpoint answers 200 for [foo-docs] and 404
    otherwise, and every probe times out. *)
Definition with_api (repos : list Repo.t) : World :=
  {| https_get := fun t r =>
       if String.eqb (req_url r) (REPOS_API Sample.config_with_token)
       then GetEnd 200 "[...]" (inr (JArray repos))
       else if String.eqb (req_url r)
                 "https://api.github.com/repos/Chriszhang6/foo-docs/pages"
       then GetEnd 200 "{...}" (inr JOther)
       else GetEnd 404 "{...}" (inr JOther);
     https_head := fun t r => HeadTimeout;
     Date_parse := Sample.parse_date;
     engine_sort := Sample.unsorted;
     path_resolve := fun p => "/work/" +:+ p;
     path_dirname := fun p => "/work";
     fs_existsSync := fun t dir => true;
     fs_mkdirSync := fun t dir recursive => None;
     fs_writeFileSync := fun t path content => None |}.

(** A world like [Sample.world] where the output directory is missing and
    cannot be created. *)
Definition read_only (repos : list Repo.t) : World :=
  {| https_get := https_get (Sample.world repos);
     https_head := https_head (Sample.world repos);
     Date_parse := Sample.parse_date;
     engine_sort := Sample.unsorted;
     path_resolve := fun p => "/work/out/" +:+ p;
     path_dirname := fun p => "/work/out";
     fs_existsSync := fun t dir => false;
     fs_mkdirSync := fun t dir recursive => Some (mkError "EACCES: permission denied");
     fs_writeFileSync := fun t path content => None |}.

(** An account name with a space, and a world where [https.get] refuses
    the probe URL it gives, [https://a b.github.io/...]. *)
Definition spaced_account : Config :=
  {| username := "a b";
     token := EmptyString;
     outputFile := "projects.json";
     filterForks := true;
     filterArchived := true;
     minStars := Num 0 |}.

Definition invalid_host (repos : list Repo.t) : World :=
  {| https_get := fun t r => GetEnd 200 "[...]" (inr (JArray repos));
     https_head := fun t r => HeadThrows (mkError "Invalid URL");
     Date_parse := Sample.parse_date;
     engine_sort := Sample.unsorted;
     path_resolve := fun p => "/work/" +:+ p;
     path_dirname := fun p => "/work";
     fs_existsSync := fun t dir => true;
     fs_mkdirSync := fun t dir recursive => None;
     fs_writeFileSync := fun t path content => None |}.

(** A process with an empty environment and one that sets every variable. *)
Definition bare : Env.Process :=
  {| Env.env := fun name => None;
     Env.default_outputFile := "/work/projects.json";
     Env.parseInt10 := fun s => if String.eqb s "0" then Num 0 else NaN |}.

Definition customised : Env.Process :=
  {| Env.env := fun name =>
       if String.eqb name "GITHUB_USERNAME" then Some "octocat"
       else if String.eqb name "GITHUB_TOKEN" then Some "ghp_secret"
       else if String.eqb name "FILTER_FORKS" then Some "false"
       else if String.eqb name "FILTER_ARCHIVED" then Some "no"
       else if String.eqb name "MIN_STARS" then Some "three"
       else None;
     Env.default_outputFile := "/work/projects.json";
     Env.parseInt10 := fun s => if String.eqb s "0" then Num 0 else NaN |}.

End Scenario.

(** ** Strings *)

#[local] Arguments String.append !_ _ : simpl nomatch.

Lemma append_empty_r (s : string) : s +:+ EmptyString = s.
Proof. induction s as [|c s IH]; simpl; [reflexivity | now rewrite IH]. Qed.

Lemma append_assoc (a b c : string) : (a +:+ b) +:+ c = a +:+ (b +:+ c).
Proof. induction a as [|x a IH]; simpl; [reflexivity | now rewrite IH]. Qed.

Lemma append_eq_empty (a b : string) :
  a +:+ b = EmptyString → a = EmptyString ∧ b = EmptyString.
Proof. destruct a; simpl; [auto | discriminate]. Qed.

Lemma test_literal_at_end_unfold (lit s : string) :
  test_literal_at_end lit s =
  if String.eqb s lit then true
  else match s with
       | EmptyString => false
       | String _ s' => test_literal_at_end lit s'
       end.
Proof. destruct s; reflexivity. Qed.

Lemma includes_unfold (s needle : string) :
  includes s needle =
  if String.prefix needle s then true
  else match s with
       | EmptyString => false
       | String _ s' => includes s' needle
       end.
Proof. destruct s; reflexivity. Qed.

(** The anchored literal test decides [ends_with]. *)
Lemma test_literal_at_end_spec (lit s : string) :
  test_literal_at_end lit s = true ↔ ends_with lit s.
Proof.
  unfold ends_with. induction s as [|c s IH];
    rewrite test_literal_at_end_unfold;
    match goal with |- context [String.eqb ?x lit] =>
      destruct (String.eqb_spec x lit) as [E|E] end;
    try (split; [intros _; exists EmptyString; now rewrite <- E | reflexivity]).
  - split; [discriminate |].
    intros [front Hf]. symmetry in Hf.
    apply append_eq_empty in Hf as [_ ->]. now destruct E.
  - rewrite IH. split.
    + intros [front ->]. now exists (String c front).
    + intros [[|c' front] Hf]; simpl in Hf.
      * now destruct E.
      * injection Hf as _ ->. now exists front.
Qed.

Lemma prefix_spec (p s : string) :
  String.prefix p s = true ↔ ∃ back, s = p +:+ back.
Proof.
  revert s. induction p as [|c p IH]; intros s.
  - destruct s; (split; [intros _; eexists; reflexivity | reflexivity]).
  - destruct s as [|c' s]; simpl.
    + split; [discriminate | intros [back Hb]; discriminate].
    + destruct (ascii_dec c c') as [->|Hne].
      * rewrite IH. split; intros [back Hb]; exists back; congruence.
      * split; [discriminate | intros [back Hb]; congruence].
Qed.

(** [includes] decides [contains]. *)
Lemma includes_spec (s needle : string) :
  includes s needle = true ↔ contains needle s.
Proof.
  unfold contains. induction s as [|c s IH];
    rewrite includes_unfold;
    destruct (String.prefix needle _) eqn:P;
    try (apply prefix_spec in P as [back Hb];
         split; [intros _; exists EmptyString, back; exact Hb | reflexivity]).
  - split; [discriminate |].
    intros (front & back & Hfb). symmetry in Hfb.
    apply append_eq_empty in Hfb as [-> Hnb]. simpl in Hnb.
    assert (String.prefix needle EmptyString = true) as P'
      by (apply prefix_spec; exists back; simpl; congruence).
    congruence.
  - rewrite IH. split.
    + intros (front & back & ->). now exists (String c front), back.
    + intros ([|c' front] & back & Hfb); simpl in Hfb.
      * assert (String.prefix needle (String c s) = true) as P'
          by (apply prefix_spec; exists back; exact Hfb).
        congruence.
      * injection Hfb as _ ->. now exists front, back.
Qed.

Lemma includes_self (s : string) : includes s s = true.
Proof.
  apply includes_spec. exists EmptyString, EmptyString.
  simpl. now rewrite append_empty_r.
Qed.

(** ** The pattern tier *)

Example likelyHasPages_foo_docs : likelyHasPages Sample.foo_docs = true.
Proof. reflexivity. Qed.

Example likelyHasPages_plain : likelyHasPages Sample.plain = false.
Proof. reflexivity. Qed.

Example likelyHasPages_case_sensitive :
  likelyHasPages (Sample.repo "Foo-DOCS" 0 "2024-01-01T00:00:00Z") = false.
Proof. reflexivity. Qed.

Lemma likelyHasPages_unfold (repo : Repo.t) :
  likelyHasPages repo = true ↔
  Exists (fun pattern => ends_with pattern (Repo.name repo)) pagesPatterns.
Proof.
  unfold likelyHasPages, JS.some. rewrite existsb_exists, Exists_exists.
  split; intros (pattern & Hin & Hp); exists pattern.
  - split; [now apply list_elem_of_In | now apply test_literal_at_end_spec].
  - split; [now apply list_elem_of_In | now apply test_literal_at_end_spec].
Qed.

(** C1, as the specification states it, fails: the account is [Chriszhang6]
    and the repository is named [other.github.io]; the pattern tier reports a
    match although the name is neither [Chriszhang6.github.io] nor ends with
    one of the six suffixes. *)
Lemma likelyHasPages_not_exact_account :
  ¬ (likelyHasPages Sample.other_site = true ↔
     spec_pattern_match Sample.config Sample.other_site).
Proof.
  intros [Hmatch _]. specialize (Hmatch eq_refl).
  destruct Hmatch as [Hname | (suffix & Hin & Hend)].
  - discriminate Hname.
  - apply test_literal_at_end_spec in Hend.
    unfold spec_suffixes in Hin.
    repeat (apply elem_of_cons in Hin as [-> | Hin]; [discriminate Hend |]).
    now apply elem_of_nil in Hin.
Qed.

(** C1, amended: for every repository record, the pattern tier reports a
    match if and only if the repository name ends with [.github.io] (the
    Pages repository of any account, [{account}.github.io] among them) or
    with one of the suffixes [-homepage], [-portfolio], [-website], [-site],
    [-demo], [-docs], case-sensitively; any other name is not matched. *)
Theorem likelyHasPages_iff (repo : Repo.t) :
  likelyHasPages repo = true ↔
  ends_with ".github.io" (Repo.name repo) ∨
  ∃ suffix, suffix ∈ spec_suffixes ∧ ends_with suffix (Repo.name repo).
Proof.
  rewrite likelyHasPages_unfold. unfold pagesPatterns, spec_suffixes.
  rewrite Exists_cons, Exists_exists.
  split; (intros [H | (suffix & Hin & H)]; [now left | right]);
    exists suffix; (split; [exact Hin | exact H]).
Qed.

(** ** The formatter *)

Lemma root_url_with_name (config : Config) (name : string) :
  "https://" +:+ username config +:+ ".github.io/" +:+ name +:+ "/" =
  root_url config +:+ name +:+ "/".
Proof. unfold root_url. now rewrite !append_assoc. Qed.

(** C7: the formatter emits the root URL [https://{account}.github.io/] when
    the repository name contains [{account}.github.io], and
    [https://{account}.github.io/{repoName}/] otherwise; the repository named
    exactly [{account}.github.io] gets the root URL. *)
Theorem formatProjectData_url (config : Config) (repo : Repo.t) :
  let account_site := username config +:+ ".github.io" in
  let url := Project.url (formatProjectData config repo) in
  (contains account_site (Repo.name repo) → url = root_url config) ∧
  (¬ contains account_site (Repo.name repo) →
   url = root_url config +:+ Repo.name repo +:+ "/") ∧
  (Repo.name repo = account_site → url = root_url config).
Proof.
  intros account_site url. subst url. unfold formatProjectData.
  cbn [Project.url]. fold account_site.
  destruct (includes (Repo.name repo) account_site) eqn:Hinc.
  - apply includes_spec in Hinc. repeat split; try reflexivity.
    intros Hnot. now destruct Hnot.
  - assert (¬ contains account_site (Repo.name repo)) as Hnot.
    { intros Hc. apply includes_spec in Hc. congruence. }
    repeat split.
    + intros Hc. now destruct Hnot.
    + intros _. apply root_url_with_name.
    + intros Hname. rewrite Hname, includes_self in Hinc. discriminate.
Qed.

Lemma formatProjectData_url_witness :
  Project.url (formatProjectData Sample.config Sample.root_site) =
    "https://Chriszhang6.github.io/" ∧
  Project.url (formatProjectData Sample.config Sample.foo_docs) =
    "https://Chriszhang6.github.io/foo-docs/" ∧
  Project.url (formatProjectData Sample.config Sample.root_site) =
    root_url Sample.config.
Proof.
  destruct (formatProjectData_url Sample.config Sample.root_site)
    as (Hcontains & _ & Hexact).
  destruct (formatProjectData_url Sample.config Sample.foo_docs)
    as (_ & Hother & _).
  split; [ | split].
  - apply Hexact. reflexivity.
  - apply Hother. intros Hc. apply includes_spec in Hc. discriminate Hc.
  - apply Hcontains. apply includes_spec. reflexivity.
Defined.

(** C8: when the description or the language of a repository record is
    absent or empty, the formatter puts the fixed placeholder in its place,
    and the description and the language of a formatted record are never
    null and never empty. *)
Theorem formatProjectData_placeholders (config : Config) (repo : Repo.t) :
  let p := formatProjectData config repo in
  (absent_or_empty (Repo.description repo) →
   Project.description p = Some "A GitHub project") ∧
  (absent_or_empty (Repo.language repo) →
   Project.language p = Some "Various") ∧
  (∃ d, Project.description p = Some d ∧ d ≠ EmptyString) ∧
  (∃ l, Project.language p = Some l ∧ l ≠ EmptyString).
Proof.
  cbn. unfold absent_or_empty, JS.or.
  destruct (Repo.description repo) as [[|c d]|],
           (Repo.language repo) as [[|c' l]|]; cbn;
    repeat split;
    try (intros [H | H]; (discriminate H || reflexivity));
    eexists; (split; [reflexivity | discriminate]).
Qed.

Lemma formatProjectData_placeholders_witness :
  Project.description (formatProjectData Sample.config Sample.foo_docs) =
    Some "A GitHub project" ∧
  Project.language (formatProjectData Sample.config Sample.blank_homepage) =
    Some "Various".
Proof.
  destruct (formatProjectData_placeholders Sample.config Sample.foo_docs)
    as (Hdescription & _).
  destruct (formatProjectData_placeholders Sample.config Sample.blank_homepage)
    as (_ & Hlanguage & _).
  split.
  - apply Hdescription. left. reflexivity.
  - apply Hlanguage. left. reflexivity.
Defined.

(** C9, as the specification states it, fails: a repository whose homepage is
    the empty string is formatted with a null homepage. *)
Lemma formatProjectData_drops_empty_homepage :
  ¬ spec_passthrough Sample.blank_homepage
      (formatProjectData Sample.config Sample.blank_homepage).
Proof.
  unfold spec_passthrough. intros (_ & _ & _ & _ & _ & _ & Hhome & _).
  discriminate Hhome.
Qed.

(** C9, amended: the formatter passes name, GitHub URL, star count, fork
    count, updatedAt and createdAt through unchanged; topics default to the
    empty sequence when absent; the homepage keeps its input value unless it
    is the empty string, which becomes null. *)
Theorem formatProjectData_passthrough (config : Config) (repo : Repo.t) :
  let p := formatProjectData config repo in
  Project.name p = Repo.name repo ∧
  Project.github p = Repo.html_url repo ∧
  Project.stars p = Repo.stargazers_count repo ∧
  Project.forks p = Repo.forks_count repo ∧
  Project.updatedAt p = Repo.updated_at repo ∧
  Project.createdAt p = Repo.created_at repo ∧
  Project.topics p = Some (default [] (Repo.topics repo)) ∧
  (Repo.homepage repo ≠ Some EmptyString →
   Project.homepage p = Repo.homepage repo) ∧
  (Repo.homepage repo = Some EmptyString → Project.homepage p = None).
Proof.
  cbn. unfold JS.or. repeat split.
  - now destruct (Repo.topics repo).
  - intros Hne. destruct (Repo.homepage repo) as [[|c h]|]; cbn; congruence.
  - intros ->. reflexivity.
Qed.

Lemma formatProjectData_passthrough_witness :
  Project.homepage (formatProjectData Sample.config Sample.foo_docs) = None ∧
  Project.homepage (formatProjectData Sample.config Sample.blank_homepage) =
    None.
Proof.
  split.
  - destruct (formatProjectData_passthrough Sample.config Sample.foo_docs)
      as (_ & _ & _ & _ & _ & _ & _ & Hkeep & _).
    apply Hkeep. cbn. discriminate.
  - destruct (formatProjectData_passthrough Sample.config Sample.blank_homepage)
      as (_ & _ & _ & _ & _ & _ & _ & _ & Hnull).
    apply Hnull. reflexivity.
Defined.

(** ** The filter *)

Lemma main_skips_iff (config : Config) (repo : Repo.t) :
  main_skips config repo = true ↔ spec_rejects config repo.
Proof.
  unfold main_skips, spec_rejects.
  destruct (filterForks config), (Repo.fork repo); cbn;
    try (split; [intros _; left; split; reflexivity | reflexivity]);
    (destruct (filterArchived config), (Repo.archived repo); cbn;
     try (split; [intros _; right; left; split; reflexivity | reflexivity]));
    (destruct (minStars config) as [minimum|]; cbn;
     [ destruct (Z.ltb_spec (Repo.stargazers_count repo) minimum) | ]);
    (split;
     [ first [ discriminate | intros _; right; right; eexists; split;
                               [reflexivity | assumption] ]
     | first [ reflexivity
             | intros [[? ?] | [[? ?] | (m & Hm & Hlt)]];
               first [ discriminate | injection Hm as <-; lia ] ] ]).
Qed.

(** C4: the filter rejects a record if and only if exclude-forks is enabled
    and the record is a fork, or exclude-archived is enabled and the record
    is archived, or the star count is strictly less than the configured
    minimum; and a rejected record leaves the iteration without any event,
    so without any network call for Pages detection. *)
Theorem filter_rejects_before_resolver (W : World) (config : Config)
    (repo : Repo.t) :
  (main_skips config repo = true ↔ spec_rejects config repo) ∧
  (spec_rejects config repo →
   ∀ projects t, main_loop_body W config repo projects t = (t, inr projects)).
Proof.
  split; [apply main_skips_iff |].
  intros Hrej projects t. apply main_skips_iff in Hrej.
  unfold main_loop_body. now rewrite Hrej.
Qed.

Lemma filter_rejects_before_resolver_witness :
  main_loop_body (Sample.world []) Sample.config Sample.archived_bar [] [] =
    ([], inr []).
Proof.
  destruct (filter_rejects_before_resolver (Sample.world []) Sample.config
              Sample.archived_bar) as (_ & Hquiet).
  apply Hquiet. right. left. split; reflexivity.
Defined.

(** ** The detection tiers *)

Lemma range_true (lo hi x : Z) :
  (lo <=? x) && (x <? hi) = true ↔ lo ≤ x < hi.
Proof. rewrite andb_true_iff, Z.leb_le, Z.ltb_lt. tauto. Qed.

Lemma probe_existsb_spec (o : HeadOutcome) :
  probe_existsb o = true ↔ probe_exists o.
Proof.
  unfold probe_exists. destruct o as [e|status|e|]; cbn;
    try (split; [discriminate | intros (? & ? & _); discriminate]).
  rewrite range_true. split.
  - intros H. now exists status.
  - intros (status' & [= <-] & H). exact H.
Qed.

Lemma testPagesURL_eq (W : World) (config : Config) (repoName : string)
    (t : Trace) :
  testPagesURL W config repoName t =
  match https_head W t (probe_request config repoName) with
  | HeadThrows e => (t, inl e)
  | outcome => (t ++ [Requested (probe_request config repoName)],
                inr (probe_existsb outcome))
  end.
Proof.
  unfold testPagesURL, probe_request.
  now destruct (https_head W t _).
Qed.

(** C3, as the specification states it, fails: with the account name [a b]
    the URL of the probe is refused by [https.get], which throws inside the
    executor, and the promise of the probe is rejected. *)
Lemma testPagesURL_rejects_invalid_url :
  ¬ spec_probe_resolves (Scenario.invalid_host []) Scenario.spaced_account
      "site" [].
Proof. intros (found & Hrun & _). discriminate Hrun. Qed.

(** C3, amended: the direct probe sends one HEAD request to
    [https://{account}.github.io/{repoName}/] with a timeout of 5000 ms and
    resolves to true exactly when the response carries a status code in
    [200,400); any other status, a network error and the timeout resolve to
    false.  The probe rejects only when [https.get] itself throws on the
    request (an account name that makes the URL invalid), and then no
    request is sent. *)
Theorem testPagesURL_outcomes (W : World) (config : Config)
    (repoName : string) (t : Trace) :
  let request :=
    {| req_method := HEAD;
       req_url := "https://" +:+ username config +:+ ".github.io/" +:+
                  repoName +:+ "/";
       req_headers := [ ("User-Agent", "Project-Daily-Snapshot") ];
       req_timeout := Some 5000 |} in
  (∀ e, https_head W t request = HeadThrows e →
        testPagesURL W config repoName t = (t, inl e)) ∧
  ((∀ e, https_head W t request ≠ HeadThrows e) →
   ∃ found : bool,
     testPagesURL W config repoName t = (t ++ [Requested request], inr found) ∧
     (found = true ↔
      ∃ status, https_head W t request = HeadResponse status ∧
                200 ≤ status < 400) ∧
     (∀ status, https_head W t request = HeadResponse status →
                ¬ (200 ≤ status < 400) → found = false) ∧
     (∀ e, https_head W t request = HeadError e → found = false) ∧
     (https_head W t request = HeadTimeout → found = false)).
Proof.
  intros request. rewrite testPagesURL_eq.
  change (probe_request config repoName) with request.
  split; [now intros e -> |].
  intros Hsent.
  exists (probe_existsb (https_head W t request)).
  split; [ | split; [apply probe_existsb_spec |]].
  - destruct (https_head W t request) as [e| | |] eqn:Hout;
      [now destruct (Hsent e) | reflexivity ..].
  - repeat split.
    + intros status -> Hout. cbn.
      destruct ((200 <=? status) && (status <? 400)) eqn:E; [ | reflexivity].
      apply range_true in E. now destruct Hout.
    + now intros e ->.
    + now intros ->.
Qed.

Lemma testPagesURL_outcomes_witness :
  testPagesURL (Sample.world []) Sample.config "foo-docs" [] =
    ([Requested (probe_request Sample.config "foo-docs")], inr false) ∧
  testPagesURL (Scenario.invalid_host []) Scenario.spaced_account "site" [] =
    ([], inl (mkError "Invalid URL")).
Proof.
  destruct (testPagesURL_outcomes (Sample.world []) Sample.config "foo-docs" [])
    as (_ & Hsent).
  destruct (testPagesURL_outcomes (Scenario.invalid_host [])
              Scenario.spaced_account "site" []) as (Hthrows & _).
  split.
  - destruct Hsent as (found & Hrun & _ & _ & _ & Htimeout).
    + intros e. discriminate.
    + rewrite Hrun. rewrite (Htimeout eq_refl). reflexivity.
  - apply Hthrows. reflexivity.
Defined.

Lemma has_credential_truthy (config : Config) :
  truthy (token config) = has_credential config.
Proof. unfold has_credential. now destruct (token config). Qed.

Lemma httpsGet_eq (W : World) (url : string) (headers : JS.object)
    (t : Trace) :
  let request :=
    {| req_method := GET;
       req_url := url;
       req_headers :=
         JS.spread [ ("User-Agent", "Project-Daily-Snapshot");
                     ("Accept", "application/vnd.github.v3+json") ] headers;
       req_timeout := None |} in
  ∃ result,
    httpsGet W url headers t =
      (match https_get W t request with
       | GetThrows _ => t
       | _ => t ++ [Requested request]
       end, result) ∧
    (get_succeeds (https_get W t request) = true →
     ∃ status data json,
       https_get W t request = GetEnd status data (inr json) ∧
       200 ≤ status < 300 ∧ result = inr json) ∧
    (get_succeeds (https_get W t request) = false →
     ∃ e, result = inl e).
Proof.
  intros request. unfold httpsGet. fold request.
  destruct (https_get W t request) as [e|status data [e|json]|e]; cbn;
    try destruct ((200 <=? status) && (status <? 300)) eqn:E;
    eexists; (split; [reflexivity |]); split; intros H;
    try discriminate H; eauto.
  apply range_true in E. eauto 10.
Qed.

(** The API tier never rejects: it sends its request when a credential is
    configured and [https.get] accepts it, and resolves to whether the call
    succeeded. *)
Lemma hasGitHubPagesAPI_eq (W : World) (config : Config) (repo : Repo.t)
    (t : Trace) :
  hasGitHubPagesAPI W config (Repo.name repo) t =
  (t ++ api_calls W config repo t, inr (api_detects W config repo t)).
Proof.
  unfold hasGitHubPagesAPI, api_calls, api_detects.
  rewrite has_credential_truthy.
  destruct (has_credential config); cbn [negb andb].
  - unfold try_catch, bind.
    destruct (httpsGet_eq W
                ("https://api.github.com/repos/" +:+ username config +:+ "/"
                 +:+ Repo.name repo +:+ "/pages")
                [("Authorization", "Bearer " +:+ token config)] t)
      as (result & -> & Hok & Hko).
    change {| req_method := GET; req_url := _; req_headers := _;
              req_timeout := None |}
      with (api_request config (Repo.name repo)) in *.
    destruct (get_succeeds _) eqn:E.
    + destruct (Hok eq_refl) as (? & ? & ? & -> & _ & ->). reflexivity.
    + destruct (Hko eq_refl) as (? & ->).
      destruct (https_get W t _); unfold ret; now rewrite ?app_nil_r.
  - unfold ret. now rewrite app_nil_r.
Qed.

(** The Pages check never rejects; it sends the requests of the API tier,
    then those of the probe, and its answer is the disjunction of the
    tiers. *)
Lemma main_checkPages_eq (W : World) (config : Config) (repo : Repo.t)
    (t : Trace) :
  main_checkPages W config repo t =
  (t ++ api_calls W config repo t ++ probe_calls W config repo t,
   inr (confirmed_at W config repo t, tier_name W config repo t)).
Proof.
  unfold main_checkPages, confirmed_at, tier_name, probe_calls, probe_detects,
    probe_outcome.
  unfold bind at 1.
  assert ((if truthy (token config)
           then try_catch
                  (hasPages <- hasGitHubPagesAPI W config (Repo.name repo) ;;
                   ret (hasPages,
                        if hasPages then "API" else "API (not found)"))
                  (fun e => ret (false, "API error: " +:+ message e))
           else ret (false, EmptyString)) t =
          (t ++ api_calls W config repo t,
           inr (api_detects W config repo t,
                if has_credential config
                then if api_detects W config repo t
                     then "API" else "API (not found)"
                else EmptyString))) as ->.
  { rewrite has_credential_truthy.
    destruct (has_credential config) eqn:Hc.
    - unfold try_catch, bind. now rewrite hasGitHubPagesAPI_eq.
    - unfold ret, api_calls, api_detects. now rewrite Hc, app_nil_r. }
  destruct (api_detects W config repo t) eqn:Hapi; cbn [negb andb orb].
  - unfold bind, ret. cbn [negb andb]. rewrite app_nil_r.
    unfold api_detects in Hapi.
    destruct (has_credential config); [reflexivity | discriminate Hapi].
  - unfold bind at 1, try_catch, bind at 1. rewrite testPagesURL_eq.
    destruct (https_head W (t ++ api_calls W config repo t)
                (probe_request config (Repo.name repo))) eqn:Hout;
      unfold ret; cbn [probe_existsb negb andb];
      rewrite <- ?app_assoc, ?app_nil_r;
      try destruct ((200 <=? statusCode) && (statusCode <? 400));
      now destruct (likelyHasPages repo).
Qed.

(** C2: the Pages check of a repository runs the tiers in order (the API
    call only with a credential, then the probe only when the API tier did
    not detect a site, then the pattern tier only when neither did), sends
    at most 2 requests (none by the pattern tier, no probe when the API tier
    detects a site), and never rejects: a tier that fails, also one whose
    [https.get] throws, counts as a tier that detects nothing. *)
Theorem main_checkPages_tiers (W : World) (config : Config) (repo : Repo.t)
    (t : Trace) :
  ∃ (calls : Trace) (hasPages : bool) (detectionMethod : string),
    main_checkPages W config repo t =
      (t ++ calls, inr (hasPages, detectionMethod)) ∧
    calls = api_calls W config repo t ++ probe_calls W config repo t ∧
    (length calls ≤ 2)%nat ∧
    calls `sublist_of` [ Requested (api_request config (Repo.name repo));
                         Requested (probe_request config (Repo.name repo)) ] ∧
    (has_credential config = false → api_calls W config repo t = []) ∧
    (api_detects W config repo t = true →
     calls = [ Requested (api_request config (Repo.name repo)) ] ∧
     detectionMethod = "API") ∧
    (get_succeeds (https_get W t (api_request config (Repo.name repo))) = false →
     api_detects W config repo t = false) ∧
    (probe_existsb (probe_outcome W config repo t) = false →
     probe_detects W config repo t = false) ∧
    (∀ e, probe_outcome W config repo t = HeadThrows e →
          calls = api_calls W config repo t ∧
          hasPages = (api_detects W config repo t || likelyHasPages repo)) ∧
    hasPages = (api_detects W config repo t || probe_detects W config repo t ||
                likelyHasPages repo) ∧
    (detectionMethod = "Pattern match" ↔
     api_detects W config repo t = false ∧
     probe_detects W config repo t = false ∧ likelyHasPages repo = true).
Proof.
  exists (api_calls W config repo t ++ probe_calls W config repo t),
         (confirmed_at W config repo t), (tier_name W config repo t).
  split; [apply main_checkPages_eq |].
  split; [reflexivity |].
  unfold confirmed_at, tier_name, probe_detects, probe_calls, api_calls,
    api_detects.
  generalize (probe_outcome W config repo t) as probe.
  generalize (likelyHasPages repo) as pattern.
  destruct (has_credential config); cbn [andb];
    [destruct (https_get W t (api_request config (Repo.name repo)))
       as [e|status data [e|json]|e]; cbn [get_succeeds];
     try destruct ((200 <=? status) && (status <? 300)) | ];
    intros [] [e'|code|e'| ]; cbn;
    try destruct ((200 <=? code) && (code <? 400));
    cbn; intuition (try discriminate; try lia; try solve [repeat constructor]).
Qed.

Lemma main_checkPages_tiers_witness :
  main_checkPages (Sample.world []) Sample.config Sample.foo_docs [] =
    ([ Requested (probe_request Sample.config "foo-docs") ],
     inr (true, "Pattern match")).
Proof.
  destruct (main_checkPages_tiers (Sample.world []) Sample.config
              Sample.foo_docs [])
    as (calls & hasPages & method & Hrun & -> & _ & _ & _ & _ & _ & _ & _ & ->
        & Hpattern).
  rewrite Hrun.
  rewrite (proj2 Hpattern (conj eq_refl (conj eq_refl eq_refl))).
  reflexivity.
Defined.

(** ** [Array.prototype.sort] *)

Section SortFacts.
Context {A : Type}.
Variable comparefn : A → A → jsnum.

Lemma sort_insert_Permutation (x : A) (l : list A) :
  sort_insert comparefn x l ≡ₚ x :: l.
Proof.
  induction l as [|y l IH]; cbn; [reflexivity |].
  destruct (before comparefn x y); [reflexivity |].
  rewrite IH. apply Permutation_swap.
Qed.

Lemma sort_fold_Permutation (l acc : list A) :
  fold_left (fun sorted x => sort_insert comparefn x sorted) l acc ≡ₚ acc ++ l.
Proof.
  revert acc. induction l as [|x l IH]; intros acc; cbn.
  - now rewrite app_nil_r.
  - rewrite IH, sort_insert_Permutation. cbn. apply Permutation_middle.
Qed.

Lemma sort_Permutation (l : list A) : JS.stable_sort comparefn l ≡ₚ l.
Proof. unfold JS.stable_sort. now rewrite sort_fold_Permutation. Qed.

(** The comparator never puts [x] before [y] and [y] before [x]. *)
Hypothesis before_asym :
  ∀ x y, before comparefn x y = true → before comparefn y x = false.

Lemma sort_insert_HdRel (x a : A) (l : list A) :
  in_order comparefn a x → HdRel (in_order comparefn) a l → HdRel (in_order comparefn) a (sort_insert comparefn x l).
Proof.
  intros Hax Hal. destruct l as [|y l]; cbn.
  - now constructor.
  - inversion_clear Hal. destruct (before comparefn x y); now constructor.
Qed.

Lemma sort_insert_Sorted (x : A) (l : list A) :
  Sorted (in_order comparefn) l → Sorted (in_order comparefn) (sort_insert comparefn x l).
Proof using before_asym.
  induction 1 as [|y l Hl IH Hy]; cbn.
  - repeat constructor.
  - destruct (before comparefn x y) eqn:E.
    + constructor; [now constructor |].
      constructor. now apply before_asym.
    + constructor; [exact IH |].
      now apply sort_insert_HdRel.
Qed.

Lemma sort_fold_Sorted (l acc : list A) :
  Sorted (in_order comparefn) acc →
  Sorted (in_order comparefn)
    (fold_left (fun sorted x => sort_insert comparefn x sorted) l acc).
Proof using before_asym.
  revert acc. induction l as [|x l IH]; intros acc Hacc; cbn; [exact Hacc |].
  apply IH. now apply sort_insert_Sorted.
Qed.

Lemma sort_Sorted (l : list A) : Sorted (in_order comparefn) (JS.stable_sort comparefn l).
Proof using before_asym. apply sort_fold_Sorted. constructor. Qed.

End SortFacts.

Lemma Sorted_adjacent {A} (R : A → A → Prop) (l : list A) (i : nat) (a b : A) :
  Sorted R l → l !! i = Some a → l !! S i = Some b → R a b.
Proof.
  intros Hs. revert i. induction Hs as [|x l Hl IH Hx]; intros i Ha Hb.
  - discriminate Ha.
  - destruct i as [|i]; cbn in Ha, Hb.
    + injection Ha as ->. destruct l as [|y l]; [discriminate Hb |].
      cbn in Hb. injection Hb as ->. now inversion_clear Hx.
    + exact (IH i Ha Hb).
Qed.

(** *** Stability *)

Lemma filter_none {A} (f : A → bool) (l : list A) :
  Forall (fun x => f x = false) l → List.filter f l = [].
Proof.
  induction 1 as [|x l Hx _ IH]; cbn; [reflexivity | now rewrite Hx].
Qed.

Section SortStable.
Context {A : Type}.
Variable comparefn : A → A → jsnum.
Variable P : A → Prop.

Hypothesis before_asym :
  ∀ x y, before comparefn x y = true → before comparefn y x = false.
Hypothesis in_order_trans :
  ∀ x y z, P x → P y → P z →
    in_order comparefn x y → in_order comparefn y z → in_order comparefn x z.

Lemma before_irrefl (x : A) : before comparefn x x = false.
Proof using before_asym.
  destruct (before comparefn x x) eqn:E; [ | reflexivity].
  now rewrite (before_asym _ _ E) in E.
Qed.

Lemma equivalent_refl (x : A) : equivalent comparefn x x = true.
Proof using before_asym. unfold equivalent. now rewrite before_irrefl. Qed.

Lemma equivalent_iff (x y : A) :
  equivalent comparefn x y = true ↔
  in_order comparefn x y ∧ in_order comparefn y x.
Proof.
  unfold equivalent, in_order.
  destruct (before comparefn x y), (before comparefn y x); cbn;
    intuition congruence.
Qed.

Lemma equivalent_same_class (x y z : A) :
  P x → P y → P z → equivalent comparefn x y = true →
  equivalent comparefn x z = equivalent comparefn y z.
Proof using in_order_trans.
  intros Px Py Pz Hxy. apply equivalent_iff in Hxy as [Hxy Hyx].
  destruct (equivalent comparefn x z) eqn:Exz,
           (equivalent comparefn y z) eqn:Eyz; try reflexivity.
  - apply equivalent_iff in Exz as [Hxz Hzx].
    assert (equivalent comparefn y z = true) as E'; [ | congruence].
    apply equivalent_iff. split; eauto.
  - apply equivalent_iff in Eyz as [Hyz Hzy].
    assert (equivalent comparefn x z = true) as E'; [ | congruence].
    apply equivalent_iff. split; eauto.
Qed.

(** In a sorted array the head may stand in front of every element. *)
Lemma Sorted_head_in_order (a : A) (l : list A) :
  Forall P (a :: l) → Sorted (in_order comparefn) (a :: l) →
  Forall (in_order comparefn a) l.
Proof using in_order_trans.
  revert a. induction l as [|b l IH]; intros a HP Hs; [constructor |].
  inversion_clear Hs as [|? ? Hs' Hhd]. inversion_clear Hhd as [|? ? Hab].
  inversion HP as [|? ? Pa HP']; subst. inversion HP' as [|? ? Pb HP'']; subst.
  constructor; [exact Hab |].
  specialize (IH b HP' Hs').
  rewrite Forall_forall in IH |- *. intros c Hc.
  rewrite Forall_forall in HP''.
  eapply in_order_trans; eauto.
Qed.

(** Inserting [x] leaves the elements equivalent to [y] in their order and
    puts [x] after them. *)
Lemma sort_insert_stable (x y : A) (l : list A) :
  Forall P (x :: l) → P y → Sorted (in_order comparefn) l →
  List.filter (equivalent comparefn y) (sort_insert comparefn x l) =
  List.filter (equivalent comparefn y) (l ++ [x]).
Proof using before_asym in_order_trans.
  intros HP Py. inversion HP as [|? ? Px HPl]; subst. clear HP.
  induction l as [|z l IH]; intros Hs; [reflexivity |].
  inversion HPl as [|? ? Pz HPl']; subst.
  cbn [sort_insert]. destruct (before comparefn x z) eqn:Exz.
  - pose proof (Sorted_head_in_order z l HPl Hs) as Hz.
    set (rest := z :: l).
    rewrite List.filter_app. cbn [List.filter].
    destruct (equivalent comparefn y x) eqn:Eyx;
      [ | now rewrite app_nil_r].
    rewrite filter_none; [reflexivity |]. subst rest.
    assert (∀ w, P w → in_order comparefn z w →
                 equivalent comparefn y w = false) as Hout.
    { intros w Pw Hzw.
      rewrite <- (equivalent_same_class x y w Px Py Pw).
      - unfold equivalent.
        destruct (before comparefn x w) eqn:Exw; [reflexivity |].
        assert (in_order comparefn z x) as Hzx
          by (eapply (in_order_trans z w x); eauto).
        unfold in_order in Hzx. congruence.
      - apply equivalent_iff. apply equivalent_iff in Eyx. tauto. }
    constructor.
    + apply Hout; [exact Pz |]. apply before_irrefl.
    + rewrite Forall_forall in Hz, HPl' |- *. intros w Hw. eauto.
  - cbn [app List.filter]. inversion_clear Hs.
    rewrite IH by assumption. reflexivity.
Qed.

Lemma sort_fold_stable (y : A) (l acc : list A) :
  Forall P (acc ++ l) → P y → Sorted (in_order comparefn) acc →
  List.filter (equivalent comparefn y)
    (fold_left (fun sorted x => sort_insert comparefn x sorted) l acc) =
  List.filter (equivalent comparefn y) (acc ++ l).
Proof using before_asym in_order_trans.
  intros HP Py. revert acc HP. induction l as [|x l IH]; intros acc HP Hs.
  - now rewrite app_nil_r.
  - cbn [fold_left]. rewrite IH.
    + rewrite !List.filter_app, sort_insert_stable, List.filter_app; trivial.
      * cbn [List.filter].
        destruct (equivalent comparefn y x);
          [now rewrite <- app_assoc | now rewrite app_nil_r].
      * apply Forall_app in HP as [Hacc Hl].
        inversion_clear Hl. now constructor.
    + rewrite sort_insert_Permutation. cbn [app].
      now rewrite Permutation_middle.
    + now apply sort_insert_Sorted.
Qed.

(** [JS.stable_sort] is a stable sort. *)
Lemma sort_stable (l : list A) :
  Forall P l → stable_sort_of comparefn l (JS.stable_sort comparefn l).
Proof using before_asym in_order_trans.
  intros HP. split; [apply sort_Permutation |].
  split; [now apply sort_Sorted |].
  intros x Hx. rewrite Forall_forall in HP.
  apply (sort_fold_stable x l []);
    [now apply Forall_forall | now apply HP | constructor].
Qed.

(** Two sorted arrays that agree on the order inside every class of
    equivalent elements are equal. *)
Lemma sorted_classes_unique (l1 l2 : list A) :
  Forall P l1 → Forall P l2 →
  Sorted (in_order comparefn) l1 → Sorted (in_order comparefn) l2 →
  (∀ y, P y → List.filter (equivalent comparefn y) l1 =
              List.filter (equivalent comparefn y) l2) →
  l1 = l2.
Proof using before_asym in_order_trans.
  revert l2. induction l1 as [|a l1 IH]; intros [|b l2] HP1 HP2 Hs1 Hs2 Hcl.
  - reflexivity.
  - inversion_clear HP2 as [|? ? Pb _].
    specialize (Hcl b Pb). cbn in Hcl. now rewrite equivalent_refl in Hcl.
  - inversion_clear HP1 as [|? ? Pa _].
    specialize (Hcl a Pa). cbn in Hcl. now rewrite equivalent_refl in Hcl.
  - inversion HP1 as [|? ? Pa HP1']; subst.
    inversion HP2 as [|? ? Pb HP2']; subst.
    assert (a = b) as <-.
    { pose proof (Hcl a Pa) as Ha. pose proof (Hcl b Pb) as Hb.
      cbn [List.filter] in Ha, Hb.
      rewrite equivalent_refl in Ha, Hb.
      destruct (equivalent comparefn a b) eqn:Eab; [congruence |].
      destruct (equivalent comparefn b a) eqn:Eba; [congruence |].
      (* a occurs in l2 and b occurs in l1 *)
      assert (In a l2) as Hal2.
      { eapply (proj1 (List.filter_In _ _ _)). rewrite <- Ha. now left. }
      assert (In b l1) as Hbl1.
      { eapply (proj1 (List.filter_In _ _ _)). rewrite Hb. now left. }
      pose proof (Sorted_head_in_order a l1 HP1 Hs1) as H1.
      pose proof (Sorted_head_in_order b l2 HP2 Hs2) as H2.
      rewrite Forall_forall in H1, H2.
      assert (equivalent comparefn a b = true); [ | congruence].
      apply equivalent_iff. split; [apply H1 | apply H2];
        now apply list_elem_of_In. }
    f_equal. inversion_clear Hs1. inversion_clear Hs2.
    apply IH; try assumption.
    intros y Py. specialize (Hcl y Py). cbn [List.filter] in Hcl.
    destruct (equivalent comparefn y a); congruence.
Qed.

(** The stable sorted arrangement is unique: it is what [JS.stable_sort]
    returns. *)
Lemma stable_sort_unique (l l' : list A) :
  (∀ x, P x ↔ x ∈ l) →
  stable_sort_of comparefn l l' ↔ l' = JS.stable_sort comparefn l.
Proof using before_asym in_order_trans.
  intros HP.
  assert (Forall P l) as HPl by (apply Forall_forall; intros; now apply HP).
  split.
  - intros (Hperm & Hsorted & Hclasses).
    destruct (sort_stable l HPl) as (Hperm' & Hsorted' & Hclasses').
    apply sorted_classes_unique; try assumption.
    + now rewrite Hperm.
    + now rewrite Hperm'.
    + intros y Py. apply HP in Py. now rewrite Hclasses, Hclasses'.
  - intros ->. now apply sort_stable.
Qed.

End SortStable.

(** ** The comparator of [main] *)

Lemma main_compare_asym (W : World) (x y : Project.t) :
  before (main_compare W) x y = true → before (main_compare W) y x = false.
Proof.
  unfold before, main_compare, JS.sub.
  destruct (Z.eqb_spec (Project.stars y) (Project.stars x)) as [E|E],
           (Z.eqb_spec (Project.stars x) (Project.stars y)) as [E'|E'];
    try congruence; cbn [negb].
  - destruct (Date_parse W (Project.updatedAt y)),
             (Date_parse W (Project.updatedAt x)); try discriminate.
    rewrite !Z.ltb_lt, Z.ltb_ge. lia.
  - rewrite !Z.ltb_lt, Z.ltb_ge. lia.
Qed.

(** Where both timestamps are valid, a pair the comparator leaves in order
    is in the order the specification requires. *)
Lemma main_compare_in_order (W : World) (a b : Project.t) :
  Date_parse W (Project.updatedAt a) ≠ NaN →
  Date_parse W (Project.updatedAt b) ≠ NaN →
  in_order (main_compare W) a b → spec_ordered W a b.
Proof.
  unfold in_order, before, main_compare, spec_ordered, instant_ge, JS.sub.
  intros Ha Hb.
  destruct (Z.eqb_spec (Project.stars a) (Project.stars b)) as [E|E];
    cbn [negb].
  - destruct (Date_parse W (Project.updatedAt a)) as [ta|]; [ | now destruct Ha].
    destruct (Date_parse W (Project.updatedAt b)) as [tb|]; [ | now destruct Hb].
    rewrite Z.ltb_ge. intros Hle. right. split; [exact E |].
    exists ta, tb. repeat split. lia.
  - rewrite Z.ltb_ge. intros Hle. left. lia.
Qed.

Lemma spec_ordered_in_order (W : World) (a b : Project.t) :
  spec_ordered W a b → in_order (main_compare W) a b.
Proof.
  unfold in_order, before, main_compare, spec_ordered, instant_ge, JS.sub.
  intros [Hgt | [Heq (ta & tb & -> & -> & Hle)]].
  - destruct (Z.eqb_spec (Project.stars a) (Project.stars b)) as [E|E];
      cbn [negb]; [lia |]. apply Z.ltb_ge. lia.
  - rewrite Heq, Z.eqb_refl. cbn [negb]. apply Z.ltb_ge. lia.
Qed.

Lemma spec_ordered_trans (W : World) (a b c : Project.t) :
  spec_ordered W a b → spec_ordered W b c → spec_ordered W a c.
Proof.
  unfold spec_ordered, instant_ge.
  intros [Hab | [Hab (ta & tb & Ha & Hb & Hle)]]
         [Hbc | [Hbc (tb' & tc & Hb' & Hc & Hle')]];
    try (left; lia).
  right. split; [lia |]. exists ta, tc. repeat split; try assumption.
  rewrite Hb in Hb'. injection Hb' as <-. lia.
Qed.

(** On timestamps that are valid instants the comparator of [main] is
    consistent, so the array [projects.sort] leaves is the one stable sorted
    arrangement of the collection, whatever algorithm the engine runs. *)
Lemma main_sort_unique (W : World) (ps sorted : list Project.t) :
  valid_instants W ps →
  stable_sort_of (main_compare W) ps sorted ↔
  sorted = JS.stable_sort (main_compare W) ps.
Proof.
  intros Hvalid. unfold valid_instants in Hvalid.
  rewrite Forall_forall in Hvalid.
  apply (stable_sort_unique (main_compare W) (fun p => p ∈ ps)).
  - apply main_compare_asym.
  - intros x y z Hx Hy Hz Hxy Hyz.
    apply spec_ordered_in_order.
    apply (spec_ordered_trans W x y z);
      apply main_compare_in_order; auto.
  - reflexivity.
Qed.

(** What [array.sort] returns is a rearrangement of the array, whatever the
    comparator. *)
Lemma sort_engine_Permutation {A} (comparefn : A → A → jsnum)
    (unspecified : ∀ l : list A, { l' : list A | l' ≡ₚ l }) (l : list A) :
  JS.sort comparefn unspecified l ≡ₚ l.
Proof.
  unfold JS.sort. destruct (consistent comparefn l);
    [apply sort_Permutation | apply (proj2_sig (unspecified l))].
Qed.

Lemma main_compare_valid (W : World) (a b : Project.t) :
  Date_parse W (Project.updatedAt a) ≠ NaN →
  Date_parse W (Project.updatedAt b) ≠ NaN →
  ∃ ta tb,
    Date_parse W (Project.updatedAt a) = Num ta ∧
    Date_parse W (Project.updatedAt b) = Num tb ∧
    main_compare W a b =
      Num (if Project.stars b =? Project.stars a then tb - ta
           else Project.stars b - Project.stars a).
Proof.
  intros Ha Hb. unfold main_compare, JS.sub.
  destruct (Date_parse W (Project.updatedAt a)) as [ta|]; [ | now destruct Ha].
  destruct (Date_parse W (Project.updatedAt b)) as [tb|]; [ | now destruct Hb].
  exists ta, tb. repeat split.
  now destruct (Project.stars b =? Project.stars a).
Qed.

(** On timestamps that are valid instants the comparator of [main] is a
    consistent comparator. *)
Lemma main_compare_consistent (W : World) (ps : list Project.t) :
  valid_instants W ps → consistent (main_compare W) ps = true.
Proof.
  intros Hvalid. unfold valid_instants in Hvalid.
  rewrite Forall_forall in Hvalid.
  assert (∀ x, In x ps → Date_parse W (Project.updatedAt x) ≠ NaN) as Hin
    by (intros x Hx; now apply Hvalid, list_elem_of_In).
  unfold consistent. apply forallb_forall. intros a Ha.
  apply andb_true_iff. split.
  { unfold eqCF.
    destruct (main_compare_valid W a a (Hin a Ha) (Hin a Ha))
      as (ta & ta' & E1 & E2 & ->).
    rewrite Z.eqb_refl. apply Z.eqb_eq.
    rewrite E1 in E2. injection E2 as <-. lia. }
  apply forallb_forall. intros b Hb.
  destruct (main_compare_valid W a b (Hin a Ha) (Hin b Hb))
    as (ta & tb & Eta & Etb & Eab).
  destruct (main_compare_valid W b a (Hin b Hb) (Hin a Ha))
    as (tb' & ta' & Etb' & Eta' & Eba).
  rewrite Etb in Etb'. injection Etb' as <-.
  rewrite Eta in Eta'. injection Eta' as <-.
  rewrite !andb_true_iff. split; [split |].
  - now rewrite Eab.
  - unfold eqCF. rewrite Eab, Eba. apply Bool.implb_true_iff.
    rewrite !Z.eqb_eq.
    destruct (Z.eqb_spec (Project.stars b) (Project.stars a)),
             (Z.eqb_spec (Project.stars a) (Project.stars b)); lia.
  - apply forallb_forall. intros c Hc.
    destruct (main_compare_valid W b c (Hin b Hb) (Hin c Hc))
      as (tb' & tc & Etb' & Etc & Ebc).
    destruct (main_compare_valid W a c (Hin a Ha) (Hin c Hc))
      as (ta' & tc' & Eta' & Etc' & Eac).
    rewrite Etb in Etb'. injection Etb' as <-.
    rewrite Eta in Eta'. injection Eta' as <-.
    rewrite Etc in Etc'. injection Etc' as <-.
    unfold eqCF, ltCF, gtCF. rewrite Eab, Ebc, Eac.
    rewrite !andb_true_iff, !Bool.implb_true_iff, !andb_true_iff,
      !Z.eqb_eq, !Z.ltb_lt.
    destruct (Z.eqb_spec (Project.stars b) (Project.stars a)),
             (Z.eqb_spec (Project.stars c) (Project.stars b)),
             (Z.eqb_spec (Project.stars c) (Project.stars a)); lia.
Qed.

(** On timestamps that are valid instants [projects.sort] leaves the stable
    sorted arrangement, whatever the engine. *)
Lemma main_sort_valid (W : World) (ps : list Project.t) :
  valid_instants W ps →
  JS.sort (main_compare W) (engine_sort W) ps =
  JS.stable_sort (main_compare W) ps.
Proof.
  intros Hvalid. unfold JS.sort.
  now rewrite (main_compare_consistent W ps Hvalid).
Qed.

(** Validity of the timestamps of what [projects.sort] leaves is validity of
    the timestamps of what it was given. *)
Lemma main_sort_valid_inv (W : World) (ps : list Project.t) :
  valid_instants W (JS.sort (main_compare W) (engine_sort W) ps) →
  valid_instants W ps.
Proof.
  unfold valid_instants. now rewrite sort_engine_Permutation.
Qed.

(** ** The loop of [main] *)

Lemma main_loop_body_eq (W : World) (config : Config) (repo : Repo.t)
    (projects : list Project.t) (t : Trace) :
  main_loop_body W config repo projects t =
  if main_skips config repo then (t, inr projects)
  else (t ++ api_calls W config repo t ++ probe_calls W config repo t,
        inr (if confirmed_at W config repo t
             then projects ++ [formatProjectData config repo]
             else projects)).
Proof.
  unfold main_loop_body. destruct (main_skips config repo); [reflexivity |].
  unfold bind. rewrite main_checkPages_eq.
  now destruct (confirmed_at W config repo t).
Qed.

Lemma tier_calls_are_requests (W : World) (config : Config) (repo : Repo.t)
    (t : Trace) :
  Forall is_request (api_calls W config repo t ++ probe_calls W config repo t).
Proof.
  apply Forall_app. split.
  - unfold api_calls.
    destruct (has_credential config); [ | constructor].
    destruct (https_get W t _); repeat constructor.
  - unfold probe_calls.
    destruct (api_detects W config repo t); [constructor |].
    destruct (probe_outcome W config repo t); repeat constructor.
Qed.

(** The loop never rejects.  It only issues network calls, and it appends to
    [projects] the formatted records of a sublist of [repos], each of which
    passed the filter and was confirmed by a tier. *)
Lemma main_loop_spec (W : World) (config : Config) (repos : list Repo.t) :
  ∀ (projects : list Project.t) (t : Trace),
  ∃ (calls : Trace) (kept : list Repo.t),
    main_loop W config repos projects t =
      (t ++ calls, inr (projects ++ map (formatProjectData config) kept)) ∧
    Forall is_request calls ∧
    kept `sublist_of` repos ∧
    Forall (eligible W config) kept.
Proof.
  induction repos as [|repo rest IH]; intros projects t; cbn [main_loop].
  - exists [], []. rewrite !app_nil_r. repeat split; constructor.
  - unfold bind. rewrite main_loop_body_eq.
    destruct (main_skips config repo) eqn:Hskip.
    + destruct (IH projects t) as (calls & kept & -> & Hcalls & Hsub & Hkept).
      exists calls, kept. repeat split; try assumption.
      now apply sublist_cons.
    + set (here := api_calls W config repo t ++ probe_calls W config repo t).
      destruct (confirmed_at W config repo t) eqn:Hconf.
      * destruct (IH (projects ++ [formatProjectData config repo]) (t ++ here))
          as (calls & kept & -> & Hcalls & Hsub & Hkept).
        exists (here ++ calls), (repo :: kept).
        cbn [map]. rewrite <- !app_assoc. cbn [app].
        repeat split.
        -- apply Forall_app. split; [apply tier_calls_are_requests | assumption].
        -- now apply sublist_skip.
        -- constructor; [ | assumption]. split.
           ++ rewrite <- main_skips_iff. congruence.
           ++ now exists t.
      * destruct (IH projects (t ++ here))
          as (calls & kept & -> & Hcalls & Hsub & Hkept).
        exists (here ++ calls), kept. rewrite <- !app_assoc.
        repeat split; try assumption.
        -- apply Forall_app. split; [apply tier_calls_are_requests | assumption].
        -- now apply sublist_cons.
Qed.

(** ** Fetch, loop and sort *)

Lemma list_request_spread (config : Config) :
  JS.spread [ ("User-Agent", "Project-Daily-Snapshot");
              ("Accept", "application/vnd.github.v3+json") ]
    (if truthy (token config)
     then [ ("Authorization", "Bearer " +:+ token config) ]
     else []) =
  req_headers (list_request config).
Proof. unfold list_request. now destruct (token config). Qed.

Lemma main_projects_unfold (W : World) (config : Config) (t : Trace) :
  main_projects W config t =
  let t1 := t ++ [Requested (list_request config)] in
  match https_get W t (list_request config) with
  | GetThrows e => (t, inl e)
  | GetEnd status data parsed =>
      if (200 <=? status) && (status <? 300) then
        match parsed with
        | inr (JArray repos) =>
            match main_loop W config repos [] t1 with
            | (t2, inr projects) =>
                (t2, inr (JS.sort (main_compare W) (engine_sort W) projects))
            | (t2, inl e) => (t2, inl e)
            end
        | inr JOther => (t1, inl (mkError "repos.map is not a function"))
        | inl e => (t1, inl (mkError ("Failed to parse JSON: " +:+ message e)))
        end
      else (t1, inl (mkError ("HTTP " +:+ showZ status +:+ ": " +:+ data)))
  | GetError e => (t1, inl e)
  end.
Proof.
  unfold main_projects, bind, httpsGet. cbn zeta.
  rewrite list_request_spread.
  change {| req_method := GET; req_url := REPOS_API config;
            req_headers := req_headers (list_request config);
            req_timeout := None |} with (list_request config).
  destruct (https_get W t (list_request config))
    as [e|status data [e|[repos|]]|e];
    try destruct ((200 <=? status) && (status <? 300));
    try reflexivity;
    cbn [as_array]; unfold ret at 1;
    destruct (main_loop W config repos _ _) as [t2 [e|projects]]; reflexivity.
Qed.

Lemma main_projects_requests (W : World) (config : Config) (t : Trace)
    (result : Error + list Project.t) :
  main_projects W config [] = (t, result) → Forall is_request t.
Proof.
  rewrite main_projects_unfold. cbn zeta. cbn [app].
  destruct (https_get W [] (list_request config))
    as [e|status data [e|[repos|]]|e];
    try destruct ((200 <=? status) && (status <? 300));
    try (intros [= <- _]; repeat constructor).
  destruct (main_loop_spec W config repos [] [Requested (list_request config)])
    as (calls & kept & -> & Hcalls & _).
  intros [= <- _]. constructor; [exact I | exact Hcalls].
Qed.

Lemma main_projects_fails (W : World) (config : Config) :
  get_fails (https_get W [] (list_request config)) →
  ∃ t e, main_projects W config [] = (t, inl e).
Proof.
  rewrite main_projects_unfold. cbn zeta. cbn [app]. unfold get_fails.
  destruct (https_get W [] (list_request config))
    as [e|status data parsed|e]; [eauto | | eauto].
  destruct ((200 <=? status) && (status <? 300)) eqn:E; [ | eauto].
  apply range_true in E. intros [Hstatus | [e ->]]; [now destruct Hstatus |].
  eauto.
Qed.

(** What a run hands to the writer: the sorted formatted records of a
    sublist of the fetched records, all of them eligible. *)
Lemma main_projects_ok (W : World) (config : Config) (ps : list Project.t) :
  output_of W config ps →
  ∃ repos kept,
    fetched W config repos ∧
    kept `sublist_of` repos ∧
    Forall (eligible W config) kept ∧
    ps = JS.sort (main_compare W) (engine_sort W) (map (formatProjectData config) kept).
Proof.
  intros [t Hrun]. revert Hrun.
  rewrite main_projects_unfold. cbn zeta. cbn [app]. unfold fetched.
  destruct (https_get W [] (list_request config))
    as [e|status data [e|[repos|]]|e];
    try destruct ((200 <=? status) && (status <? 300)) eqn:E;
    try discriminate.
  apply range_true in E.
  destruct (main_loop_spec W config repos [] [Requested (list_request config)])
    as (calls & kept & -> & _ & Hsub & Hkept).
  intros [= _ <-]. exists repos, kept. eauto 10.
Qed.

Lemma main_projects_empty (W : World) (config : Config) :
  fetched W config [] →
  main_projects W config [] = ([Requested (list_request config)], inr []).
Proof.
  intros (status & data & Hget & Hstatus).
  rewrite main_projects_unfold, Hget. cbn zeta.
  apply range_true in Hstatus. now rewrite Hstatus.
Qed.

Lemma formatProjectData_names (config : Config) (repos : list Repo.t) :
  map Project.name (map (formatProjectData config) repos) = map Repo.name repos.
Proof. induction repos as [|r repos IH]; cbn; [reflexivity | now rewrite IH]. Qed.

Lemma sublist_map {A B} (f : A → B) (l1 l2 : list A) :
  l1 `sublist_of` l2 → map f l1 `sublist_of` map f l2.
Proof. induction 1; cbn; now constructor. Qed.

(** C5: every record of the output corresponds to one fetched record that
    passed the filter and was confirmed by some detection tier, and the
    output holds nothing else: it is a rearrangement of the formatted
    records of a sublist of the fetched list, all of them eligible.  Where
    the names of the fetched records are unique, no record is emitted
    twice. *)
Theorem output_from_eligible_fetched (W : World) (config : Config)
    (ps : list Project.t) :
  output_of W config ps →
  ∃ repos kept,
    fetched W config repos ∧
    kept `sublist_of` repos ∧
    Forall (eligible W config) kept ∧
    ps ≡ₚ map (formatProjectData config) kept ∧
    (NoDup (map Repo.name repos) → NoDup ps).
Proof.
  intros Hout.
  destruct (main_projects_ok W config ps Hout)
    as (repos & kept & Hfetch & Hsub & Hkept & ->).
  exists repos, kept. repeat split; try assumption.
  - apply sort_engine_Permutation.
  - intros Hnames.
    rewrite sort_engine_Permutation.
    apply (NoDup_fmap_1 Project.name).
    change (NoDup (map Project.name (map (formatProjectData config) kept))).
    rewrite formatProjectData_names.
    eapply sublist_NoDup; [exact Hnames | now apply sublist_map].
Qed.

Lemma output_from_eligible_fetched_witness :
  ∃ repos kept,
    fetched (Sample.world Sample.repos) Sample.config repos ∧
    kept `sublist_of` repos ∧
    Forall (eligible (Sample.world Sample.repos) Sample.config) kept ∧
    Sample.snapshot ≡ₚ map (formatProjectData Sample.config) kept ∧
    (NoDup (map Repo.name repos) → NoDup Sample.snapshot).
Proof.
  apply (output_from_eligible_fetched (Sample.world Sample.repos) Sample.config
           Sample.snapshot).
  exists (fst (main_projects (Sample.world Sample.repos) Sample.config [])).
  vm_compute. reflexivity.
Defined.

(** C6: in every output collection whose timestamps are valid time
    instants, every adjacent pair (A, B) has A.stars > B.stars, or
    A.stars = B.stars and A.updatedAt at or after B.updatedAt as instants. *)
Theorem output_sorted (W : World) (config : Config) (ps : list Project.t) :
  output_of W config ps → valid_instants W ps → adjacent_ordered W ps.
Proof.
  intros Hout Hvalid i a b Ha Hb.
  destruct (main_projects_ok W config ps Hout) as (repos & kept & _ & _ & _ & ->).
  pose proof (main_sort_valid_inv W _ Hvalid) as Hgiven.
  rewrite (main_sort_valid W _ Hgiven) in Hvalid, Ha, Hb.
  unfold valid_instants in Hvalid. rewrite Forall_forall in Hvalid.
  apply main_compare_in_order.
  - apply Hvalid. eapply list_elem_of_lookup_2. exact Ha.
  - apply Hvalid. eapply list_elem_of_lookup_2. exact Hb.
  - eapply Sorted_adjacent; [ | exact Ha | exact Hb].
    apply sort_Sorted. apply main_compare_asym.
Qed.

Lemma output_sorted_witness :
  adjacent_ordered (Sample.world Sample.repos) Sample.snapshot.
Proof.
  apply (output_sorted (Sample.world Sample.repos) Sample.config
           Sample.snapshot).
  - exists (fst (main_projects (Sample.world Sample.repos) Sample.config [])).
    vm_compute. reflexivity.
  - repeat constructor; vm_compute; discriminate.
Defined.

(** ** Writing the artifact *)

Example stringify_empty : JSON.stringify [] = "[]".
Proof. reflexivity. Qed.

Example run_sample :
  snd (main (Sample.world Sample.repos) Sample.config) = 0 ∧
  length (fst (main (Sample.world Sample.repos) Sample.config)) = 5%nat.
Proof. split; vm_compute; reflexivity. Qed.


Lemma requests_wrote_nothing (t : Trace) : Forall is_request t → wrote_nothing t.
Proof.
  intros Hreq path content Hin. rewrite Forall_forall in Hreq.
  exact (Hreq _ Hin).
Qed.

Lemma wrote_nothing_mkdir (t : Trace) (dir : string) (recursive : bool) :
  wrote_nothing t → wrote_nothing (t ++ [MadeDir dir recursive]).
Proof.
  intros Hnone path content Hin. apply elem_of_app in Hin as [Hin | Hin].
  - exact (Hnone _ _ Hin).
  - apply list_elem_of_singleton in Hin. discriminate Hin.
Qed.

(** The writer either ends by writing the whole artifact or throws without
    having written anything; it writes when the file system accepts. *)
Lemma main_write_cases (W : World) (config : Config) (ps : list Project.t)
    (t : Trace) :
  let path := path_resolve W (outputFile config) in
  ∃ t' result,
    main_write W config ps t = (t', result) ∧
    ((result = inr tt ∧ last t' = Some (WroteFile path (JSON.stringify ps))) ∨
     ((∃ e, result = inl e) ∧ ¬ fs_accepts W ∧
      (wrote_nothing t → wrote_nothing t'))).
Proof.
  intros path. unfold main_write, bind, existsSync, mkdirSync, writeFileSync, ret.
  fold path. set (dir := path_dirname W path).
  destruct (fs_existsSync W t dir); cbn [negb].
  - destruct (fs_writeFileSync W t path _) as [e|] eqn:Hw; eexists _, _;
      (split; [reflexivity |]).
    + right. repeat split; eauto. intros [_ Hacc]. now rewrite Hacc in Hw.
    + left. split; [reflexivity | apply last_snoc].
  - destruct (fs_mkdirSync W t dir true) as [e|] eqn:Hm.
    + eexists _, _. split; [reflexivity |]. right. repeat split; eauto.
      intros [Hacc _]. now rewrite Hacc in Hm.
    + destruct (fs_writeFileSync W (t ++ [MadeDir dir true]) path _) as [e|] eqn:Hw;
        eexists _, _; (split; [reflexivity |]).
      * right. repeat split; eauto using wrote_nothing_mkdir.
        intros [_ Hacc]. now rewrite Hacc in Hw.
      * left. split; [reflexivity | apply last_snoc].
Qed.

Lemma main_unfold (W : World) (config : Config) :
  main W config =
  match main_projects W config [] with
  | (t, inr ps) =>
      match main_write W config ps t with
      | (t', inr _) => (t', 0)
      | (t', inl _) => (t', 1)
      end
  | (t, inl _) => (t, 1)
  end.
Proof.
  unfold main, main_try, bind.
  destruct (main_projects W config []) as [t [e|ps]]; reflexivity.
Qed.

(** C10: if the initial repository-list fetch fails (network error, non-2xx
    status or malformed JSON body), no output file is written and the run
    reports failure; a run that completes ends by writing the full artifact,
    and a run that does not complete writes nothing; an empty fetched list
    gives an output file that holds the empty JSON array and a successful
    exit, where the file system accepts the write. *)
Theorem main_all_or_nothing (W : World) (config : Config) :
  let run := main W config in
  let path := path_resolve W (outputFile config) in
  (get_fails (https_get W [] (list_request config)) →
   wrote_nothing (fst run) ∧ snd run = 1) ∧
  (snd run = 0 →
   ∃ ps, output_of W config ps ∧
         last (fst run) = Some (WroteFile path (JSON.stringify ps))) ∧
  (snd run = 0 ∨ (snd run = 1 ∧ wrote_nothing (fst run))) ∧
  (fetched W config [] → fs_accepts W →
   last (fst run) = Some (WroteFile path "[]") ∧ snd run = 0).
Proof.
  intros run path. subst run. rewrite main_unfold.
  split; [ | split; [ | split]].
  - intros Hfail.
    destruct (main_projects_fails W config Hfail) as (t & e & Hrun).
    rewrite Hrun. cbn. split; [ | reflexivity].
    apply requests_wrote_nothing. eapply main_projects_requests, Hrun.
  - destruct (main_projects W config []) as [t [e|ps]] eqn:Hrun;
      [discriminate |].
    destruct (main_write_cases W config ps t)
      as (t' & result & -> & [[-> Hlast] | [[e ->] _]]); [ | discriminate].
    intros _. exists ps. split; [now exists t | exact Hlast].
  - destruct (main_projects W config []) as [t [e|ps]] eqn:Hrun.
    + right. split; [reflexivity |].
      apply requests_wrote_nothing. eapply main_projects_requests, Hrun.
    + destruct (main_write_cases W config ps t)
        as (t' & result & -> & [[-> _] | [[e ->] [_ Hnone]]]);
        [now left | right].
      split; [reflexivity |]. apply Hnone, requests_wrote_nothing.
      eapply main_projects_requests, Hrun.
  - intros Hempty Hacc. rewrite (main_projects_empty W config Hempty).
    destruct (main_write_cases W config [] [Requested (list_request config)])
      as (t' & result & -> & [[-> Hlast] | [_ [Hrefuse _]]]);
      [ | now destruct Hrefuse].
    split; [exact Hlast | reflexivity].
Qed.

Lemma main_all_or_nothing_witness :
  (wrote_nothing (fst (main Sample.rate_limited Sample.config)) ∧
   snd (main Sample.rate_limited Sample.config) = 1) ∧
  (∃ ps, output_of (Sample.world Sample.repos) Sample.config ps ∧
         last (fst (main (Sample.world Sample.repos) Sample.config)) =
           Some (WroteFile "/work/projects.json" (JSON.stringify ps))) ∧
  (last (fst (main (Sample.world []) Sample.config)) =
     Some (WroteFile "/work/projects.json" "[]") ∧
   snd (main (Sample.world []) Sample.config) = 0).
Proof.
  destruct (main_all_or_nothing Sample.rate_limited Sample.config)
    as (Hfatal & _).
  destruct (main_all_or_nothing (Sample.world Sample.repos) Sample.config)
    as (_ & Hcomplete & _).
  destruct (main_all_or_nothing (Sample.world []) Sample.config)
    as (_ & _ & _ & Hempty).
  split; [ | split].
  - apply Hfatal. cbn. left. lia.
  - apply Hcomplete. vm_compute. reflexivity.
  - apply Hempty.
    + exists 200, "[...]". split; [reflexivity | lia].
    + split; reflexivity.
Defined.

(** ** [httpsGet] *)




(** ** The Pages check *)

(** X2: the Pages check always ends with a diagnostic that tells its
    outcome: [API], [URL test] or [Pattern match] exactly when it found a
    site; otherwise [URL test (not found)] when the probe was sent, and
    [URL test error: <message>] when [https.get] threw on the probe.  The
    empty string, [API (not found)] and the [API error: ] diagnostic of the
    first [catch] block are never the final diagnostic. *)
Theorem main_checkPages_diagnostic (W : World) (config : Config)
    (repo : Repo.t) (t : Trace) :
  ∃ (t' : Trace) (hasPages : bool) (detectionMethod : string),
    main_checkPages W config repo t = (t', inr (hasPages, detectionMethod)) ∧
    (hasPages = true ↔ detectionMethod ∈ positive_diagnostics) ∧
    (hasPages = false →
     match probe_outcome W config repo t with
     | HeadThrows e => detectionMethod = "URL test error: " +:+ message e
     | _ => detectionMethod = "URL test (not found)"
     end) ∧
    (detectionMethod = "URL test (not found)" → hasPages = false) ∧
    (∀ m, detectionMethod = "URL test error: " +:+ m →
          hasPages = false ∧
          ∃ e, probe_outcome W config repo t = HeadThrows e ∧ m = message e).
Proof.
  rewrite main_checkPages_eq. eexists _, _, _. split; [reflexivity |].
  unfold confirmed_at, tier_name, probe_detects, positive_diagnostics.
  destruct (api_detects W config repo t), (likelyHasPages repo),
           (probe_outcome W config repo t) as [e|code|e|];
    cbn [negb andb orb probe_existsb];
    try destruct ((200 <=? code) && (code <? 400));
    (split; [split | split; [ | split]]);
    try discriminate; try reflexivity;
    try solve [intros _; repeat constructor];
    try solve [intros m Hm; cbn in Hm; discriminate Hm];
    try solve [intros H; exfalso; cbn in H;
               repeat (apply elem_of_cons in H as [H | H]; [discriminate H |]);
               now apply elem_of_nil in H].
  intros m Hm. cbn in Hm. injection Hm as <-.
  split; [reflexivity | eauto].
Qed.

Lemma main_checkPages_diagnostic_witness :
  main_checkPages (Scenario.invalid_host []) Scenario.spaced_account
    Sample.plain [] =
  ([], inr (false, "URL test error: Invalid URL")).
Proof.
  destruct (main_checkPages_diagnostic (Scenario.invalid_host [])
              Scenario.spaced_account Sample.plain [])
    as (t' & hasPages & method & Hrun & _ & Hnone & _).
  rewrite Hrun in *. vm_compute in Hrun. injection Hrun as <- <- Hmethod.
  rewrite (Hnone eq_refl). reflexivity.
Defined.

(** ** Whole runs *)

Lemma main_loop_eq (W : World) (config : Config) (repos : list Repo.t) :
  ∀ (projects : list Project.t) (t : Trace),
    main_loop W config repos projects t =
    (t ++ loop_calls W config repos t,
     inr (projects ++
          map (formatProjectData config) (loop_kept W config repos t))).
Proof.
  induction repos as [|repo rest IH]; intros projects t;
    cbn [main_loop loop_calls loop_kept].
  - unfold ret. now rewrite !app_nil_r.
  - unfold bind. rewrite main_loop_body_eq.
    destruct (main_skips config repo); [apply IH |].
    cbn zeta. rewrite IH.
    destruct (confirmed_at W config repo t); cbn [map];
      now rewrite <- !app_assoc.
Qed.

Lemma main_projects_fetched (W : World) (config : Config)
    (repos : list Repo.t) :
  fetched W config repos →
  let t1 := [ Requested (list_request config) ] in
  main_projects W config [] =
  (t1 ++ loop_calls W config repos t1,
   inr (JS.sort (main_compare W) (engine_sort W)
          (map (formatProjectData config) (loop_kept W config repos t1)))).
Proof.
  intros (status & data & Hget & Hstatus). cbn zeta.
  rewrite main_projects_unfold, Hget. cbn zeta.
  apply range_true in Hstatus. rewrite Hstatus.
  cbn [app]. now rewrite main_loop_eq.
Qed.

(** The trace of fetch, loop and sort: nothing when [https.get] refuses the
    list request; otherwise the list request, then the calls of the loop
    when the fetch gave an array. *)
Lemma main_projects_trace (W : World) (config : Config) :
  let t1 := [ Requested (list_request config) ] in
  ((∃ e, https_get W [] (list_request config) = GetThrows e) ∧
   fst (main_projects W config []) = [] ∧
   ∀ repos, ¬ fetched W config repos) ∨
  ∃ calls,
    fst (main_projects W config []) = t1 ++ calls ∧
    (calls = [] ∨
     ∃ repos, fetched W config repos ∧ calls = loop_calls W config repos t1).
Proof.
  cbn zeta.
  destruct (https_get W [] (list_request config))
    as [e|status data [e|[repos|]]|e] eqn:Hget;
    [ left; split; [now exists e | split];
      [ rewrite main_projects_unfold, Hget; reflexivity
      | intros repos (status & data & Hget' & _); congruence ]
    | right .. ];
    try destruct ((200 <=? status) && (status <? 300)) eqn:E;
    try (exists []; split; [ | now left];
         rewrite main_projects_unfold, Hget; cbn zeta; rewrite ?E;
         reflexivity).
  assert (fetched W config repos) as Hfetch.
  { exists status, data. split; [exact Hget | now apply range_true]. }
  exists (loop_calls W config repos [Requested (list_request config)]).
  split; [ | right; eauto].
  now rewrite (main_projects_fetched W config repos Hfetch).
Qed.

(** What a run does after fetch, loop and sort: nothing when these failed;
    otherwise it creates the output directory when [existsSync] misses it
    and writes the artifact, stopping at the first call that throws. *)
Lemma main_shape (W : World) (config : Config) :
  let path := path_resolve W (outputFile config) in
  let dir := path_dirname W path in
  ∃ t result tail,
    main_projects W config [] = (t, result) ∧
    fst (main W config) = t ++ tail ∧
    ((tail = [] ∧ snd (main W config) = 1 ∧
      ((∃ e, result = inl e) ∨
       (fs_existsSync W t dir = false ∧
        ∃ e, fs_mkdirSync W t dir true = Some e) ∨
       (fs_existsSync W t dir = true ∧
        ∃ ps e, result = inr ps ∧
                fs_writeFileSync W t path (JSON.stringify ps) = Some e))) ∨
     (∃ ps, result = inr ps ∧ snd (main W config) = 0 ∧
            fs_existsSync W t dir = true ∧
            tail = [ WroteFile path (JSON.stringify ps) ]) ∨
     (∃ ps, result = inr ps ∧ snd (main W config) = 1 ∧
            fs_existsSync W t dir = false ∧ tail = [ MadeDir dir true ]) ∨
     (∃ ps, result = inr ps ∧ snd (main W config) = 0 ∧
            fs_existsSync W t dir = false ∧
            tail = [ MadeDir dir true; WroteFile path (JSON.stringify ps) ])).
Proof.
  intros path dir. rewrite main_unfold.
  destruct (main_projects W config []) as [t [e|ps]] eqn:Hrun.
  - exists t, (inl e), []. rewrite app_nil_r. cbn. eauto 10.
  - unfold main_write, bind, existsSync, mkdirSync, writeFileSync, ret.
    fold path. fold dir.
    destruct (fs_existsSync W t dir) eqn:Hdir; cbn [negb].
    + destruct (fs_writeFileSync W t path _) as [e|] eqn:Hw.
      * exists t, (inr ps), []. rewrite app_nil_r. cbn. eauto 12.
      * exists t, (inr ps), [WroteFile path (JSON.stringify ps)]. cbn.
        split; [reflexivity |]. split; [reflexivity |]. right. left. eauto.
    + destruct (fs_mkdirSync W t dir true) as [e|] eqn:Hm.
      * exists t, (inr ps), []. rewrite app_nil_r. cbn. eauto 12.
      * destruct (fs_writeFileSync W (t ++ [MadeDir dir true]) path _) as [e|].
        -- exists t, (inr ps), [MadeDir dir true]. cbn.
           split; [reflexivity |]. split; [reflexivity |].
           right. right. left. eauto.
        -- exists t, (inr ps), [MadeDir dir true; WroteFile path (JSON.stringify ps)].
           cbn. rewrite <- app_assoc.
           split; [reflexivity |]. split; [reflexivity |].
           right. right. right. eauto.
Qed.

(** X3: when the list endpoint answers with a 2xx status and well-formed
    JSON that is not an array, the run ends with status 1 after that single
    request: no repository is checked and nothing is written. *)
Theorem main_rejects_non_array (W : World) (config : Config)
    (status : Z) (data : string) :
  https_get W [] (list_request config) = GetEnd status data (inr JOther) →
  200 ≤ status < 300 →
  main W config = ([ Requested (list_request config) ], 1).
Proof.
  intros Hget Hstatus. rewrite main_unfold, main_projects_unfold, Hget.
  cbn zeta. apply range_true in Hstatus. now rewrite Hstatus.
Qed.

Lemma main_rejects_non_array_witness :
  main Scenario.not_an_array Sample.config =
    ([ Requested (list_request Sample.config) ], 1).
Proof.
  apply (main_rejects_non_array Scenario.not_an_array Sample.config 200 "{}").
  - reflexivity.
  - lia.
Defined.

(** X4: a run writes at most one file.  Whenever a write occurs it is the
    last event of the run, it goes to the resolved output path, its content
    is the serialised output collection, nothing was written before it, and
    the run exits with status 0. *)
Theorem main_single_write (W : World) (config : Config)
    (path content : string) :
  WroteFile path content ∈ fst (main W config) →
  path = path_resolve W (outputFile config) ∧
  (∃ ps, output_of W config ps ∧ content = JSON.stringify ps) ∧
  (∃ earlier, fst (main W config) = earlier ++ [ WroteFile path content ] ∧
              wrote_nothing earlier) ∧
  snd (main W config) = 0.
Proof.
  intros Hin.
  destruct (main_shape W config) as (t & result & tail & Hrun & Htrace & Hcases).
  assert (wrote_nothing t) as Hquiet.
  { apply requests_wrote_nothing. eapply main_projects_requests, Hrun. }
  rewrite Htrace in Hin |- *. apply elem_of_app in Hin as [Hin | Hin];
    [now destruct (Hquiet _ _ Hin) |].
  destruct Hcases as [(-> & _) | [(ps & -> & Hexit & _ & ->)
    | [(ps & -> & _ & _ & ->) | (ps & -> & Hexit & _ & ->)]]].
  - now apply elem_of_nil in Hin.
  - apply list_elem_of_singleton in Hin. injection Hin as -> ->.
    repeat split; try assumption.
    + exists ps. split; [now exists t | reflexivity].
    + now exists t.
  - apply list_elem_of_singleton in Hin. discriminate Hin.
  - apply elem_of_cons in Hin as [Hin | Hin]; [discriminate Hin |].
    apply list_elem_of_singleton in Hin. injection Hin as -> ->.
    repeat split; try assumption.
    + exists ps. split; [now exists t | reflexivity].
    + exists (t ++ [MadeDir (path_dirname W (path_resolve W (outputFile config))) true]).
      split; [now rewrite <- app_assoc | now apply wrote_nothing_mkdir].
Qed.

Lemma main_single_write_witness :
  snd (main (Sample.world []) Sample.config) = 0.
Proof.
  apply (main_single_write (Sample.world []) Sample.config
           "/work/projects.json" "[]").
  vm_compute. repeat constructor.
Defined.

(** X5: the only directory call of a run is
    [mkdirSync(dir, { recursive: true })] for the directory of the resolved
    output path, a call that creates this directory together with every
    missing ancestor.  The run makes it only after fetch, loop and sort
    succeeded and [existsSync] reported the directory missing; when the call
    throws, the run exits with status 1 without writing the file. *)
Theorem main_creates_missing_directory (W : World) (config : Config) :
  let dir := path_dirname W (path_resolve W (outputFile config)) in
  (∀ made recursive, MadeDir made recursive ∈ fst (main W config) →
     made = dir ∧ recursive = true ∧
     ∃ t ps, main_projects W config [] = (t, inr ps) ∧
             fs_existsSync W t dir = false) ∧
  (∀ t ps e, main_projects W config [] = (t, inr ps) →
     fs_existsSync W t dir = false → fs_mkdirSync W t dir true = Some e →
     main W config = (t, 1)).
Proof.
  intros dir. split.
  - intros made recursive Hin.
    destruct (main_shape W config)
      as (t & result & tail & Hrun & Htrace & Hcases).
    rewrite Htrace in Hin. apply elem_of_app in Hin as [Hin | Hin].
    { pose proof (main_projects_requests W config t result Hrun) as Hreq.
      rewrite Forall_forall in Hreq. now destruct (Hreq _ Hin). }
    fold dir in Hcases.
    destruct Hcases as [(-> & _) | [(ps & -> & _ & _ & ->)
      | [(ps & -> & _ & Hdir & ->) | (ps & -> & _ & Hdir & ->)]]].
    + now apply elem_of_nil in Hin.
    + apply list_elem_of_singleton in Hin. discriminate Hin.
    + apply list_elem_of_singleton in Hin. injection Hin as -> ->.
      split; [reflexivity | split; [reflexivity | eauto]].
    + apply elem_of_cons in Hin as [Hin | Hin].
      * injection Hin as -> ->.
        split; [reflexivity | split; [reflexivity | eauto]].
      * apply list_elem_of_singleton in Hin. discriminate Hin.
  - intros t ps e Hrun Hdir Hm. rewrite main_unfold, Hrun.
    unfold main_write, bind, existsSync, mkdirSync. cbn zeta. fold dir.
    rewrite Hdir. cbn [negb]. now rewrite Hm.
Qed.

Lemma main_creates_missing_directory_witness :
  (∃ t ps, main_projects (Scenario.fresh_directory []) Sample.config [] =
             (t, inr ps) ∧
           fs_existsSync (Scenario.fresh_directory []) t "/work/out" = false) ∧
  main (Scenario.read_only []) Sample.config =
    ([ Requested (list_request Sample.config) ], 1).
Proof.
  destruct (main_creates_missing_directory (Scenario.fresh_directory [])
              Sample.config) as (Hmade & _).
  destruct (main_creates_missing_directory (Scenario.read_only [])
              Sample.config) as (_ & Hthrows).
  split.
  - apply (Hmade "/work/out" true). vm_compute. repeat constructor.
  - apply (Hthrows _ [] (mkError "EACCES: permission denied")); reflexivity.
Defined.

(** ** The requests of a run *)

Lemma loop_calls_origin (W : World) (config : Config) (repos : list Repo.t) :
  ∀ t, Forall (fun e =>
         ∃ repo, repo ∈ repos ∧
           (e = Requested (probe_request config (Repo.name repo)) ∨
            (has_credential config = true ∧
             e = Requested (api_request config (Repo.name repo)))))
       (loop_calls W config repos t).
Proof.
  induction repos as [|repo rest IH]; intros t; cbn [loop_calls];
    [constructor |].
  assert (∀ t', Forall (fun e =>
            ∃ r, r ∈ repo :: rest ∧
              (e = Requested (probe_request config (Repo.name r)) ∨
               (has_credential config = true ∧
                e = Requested (api_request config (Repo.name r)))))
            (loop_calls W config rest t')) as Hrest.
  { intros t'. eapply Forall_impl; [apply IH |].
    intros e (r & Hr & He). exists r. split; [now right | exact He]. }
  destruct (main_skips config repo); [apply Hrest |].
  cbn zeta. apply Forall_app. split; [ | apply Hrest].
  apply Forall_app. split.
  - unfold api_calls.
    destruct (has_credential config) eqn:Hc; [ | constructor].
    destruct (https_get W t _);
      repeat constructor; exists repo; (split; [now left |]); auto.
  - unfold probe_calls.
    destruct (api_detects W config repo t); [constructor |].
    destruct (probe_outcome W config repo t);
      repeat constructor; exists repo; (split; [now left |]); auto.
Qed.

Lemma list_request_headers (config : Config) :
  req_headers (list_request config) =
  ("User-Agent", "Project-Daily-Snapshot") ::
  ("Accept", "application/vnd.github.v3+json") ::
  (if has_credential config
   then [ ("Authorization", "Bearer " +:+ token config) ]
   else []).
Proof. unfold list_request, has_credential. now destruct (token config). Qed.

Lemma requested_in_run (W : World) (config : Config) (req : Request) :
  Requested req ∈ fst (main W config) →
  req = list_request config ∨
  ∃ repos repo, fetched W config repos ∧ repo ∈ repos ∧
    (req = probe_request config (Repo.name repo) ∨
     (has_credential config = true ∧
      req = api_request config (Repo.name repo))).
Proof.
  intros Hin.
  destruct (main_shape W config) as (t & result & tail & Hrun & Htrace & Hcases).
  rewrite Htrace in Hin. apply elem_of_app in Hin as [Hin | Hin].
  - destruct (main_projects_trace W config)
      as [(_ & Ht & _) | (calls & Ht & Hcalls)];
      rewrite Hrun in Ht; cbn [fst] in Ht; rewrite Ht in Hin;
      [now apply elem_of_nil in Hin |].
    apply elem_of_app in Hin as [Hin | Hin].
    + apply list_elem_of_singleton in Hin. injection Hin as ->. now left.
    + destruct Hcalls as [-> | (repos & Hfetch & ->)];
        [now apply elem_of_nil in Hin |].
      right. exists repos.
      pose proof (loop_calls_origin W config repos
                    [Requested (list_request config)]) as Horigin.
      rewrite Forall_forall in Horigin.
      destruct (Horigin _ Hin) as (repo & Hrepo & [He | [Hc He]]);
        injection He as ->; eauto 10.
  - exfalso.
    destruct Hcases as [(-> & _) | [(ps & _ & _ & _ & ->)
      | [(ps & _ & _ & _ & ->) | (ps & _ & _ & _ & ->)]]];
      repeat (apply elem_of_cons in Hin as [Hin | Hin]; [discriminate Hin |]);
      now apply elem_of_nil in Hin.
Qed.

(** X6: every request of a run is either a GET to [https://api.github.com/]
    without timeout, whose headers are the User-Agent, the Accept header and,
    exactly when a token is configured, [Authorization: Bearer <token>]; or
    a HEAD to the account's Pages host with a timeout of 5000 ms whose only
    header is the User-Agent.  So the token is never sent to the Pages host
    and every request carries the User-Agent. *)
Theorem main_request_headers (W : World) (config : Config) (req : Request) :
  Requested req ∈ fst (main W config) →
  (req_method req = GET ∧
   starts_with "https://api.github.com/" (req_url req) ∧
   req_headers req =
     ("User-Agent", "Project-Daily-Snapshot") ::
     ("Accept", "application/vnd.github.v3+json") ::
     (if has_credential config
      then [ ("Authorization", "Bearer " +:+ token config) ]
      else []) ∧
   req_timeout req = None) ∨
  (req_method req = HEAD ∧
   starts_with (root_url config) (req_url req) ∧
   req_headers req = [ ("User-Agent", "Project-Daily-Snapshot") ] ∧
   req_timeout req = Some 5000).
Proof.
  intros Hin.
  destruct (requested_in_run W config req Hin)
    as [-> | (repos & repo & _ & _ & [-> | [Hc ->]])].
  - left. repeat split.
    + eexists. reflexivity.
    + apply list_request_headers.
  - right. repeat split.
    exists (Repo.name repo +:+ "/"). cbn [req_url probe_request].
    unfold root_url. now rewrite !append_assoc.
  - left. rewrite Hc. repeat split. eexists. reflexivity.
Qed.

Lemma main_request_headers_witness :
  req_method (probe_request Sample.config "foo-docs") = HEAD ∧
  starts_with (root_url Sample.config)
    (req_url (probe_request Sample.config "foo-docs")) ∧
  req_headers (probe_request Sample.config "foo-docs") =
    [ ("User-Agent", "Project-Daily-Snapshot") ] ∧
  req_timeout (probe_request Sample.config "foo-docs") = Some 5000.
Proof.
  destruct (main_request_headers (Sample.world Sample.repos) Sample.config
              (probe_request Sample.config "foo-docs")) as [Hget | Hhead].
  - vm_compute. repeat constructor.
  - destruct Hget as (Hmethod & _). discriminate Hmethod.
  - exact Hhead.
Defined.

Lemma api_calls_length (W : World) (config : Config) (repo : Repo.t)
    (t : Trace) :
  (length (api_calls W config repo t) ≤ 1)%nat ∧
  (has_credential config = false → api_calls W config repo t = []) ∧
  (api_detects W config repo t = true →
   length (api_calls W config repo t) = 1%nat).
Proof.
  unfold api_calls, api_detects.
  destruct (has_credential config); cbn [andb];
    [ | split; [cbn; lia | split; [reflexivity | discriminate]]].
  destruct (https_get W t (api_request config (Repo.name repo)));
    cbn [get_succeeds length];
    (split; [lia | split; [discriminate | (discriminate || reflexivity)]]).
Qed.

Lemma probe_calls_length (W : World) (config : Config) (repo : Repo.t)
    (t : Trace) :
  (length (probe_calls W config repo t) ≤ 1)%nat ∧
  (never_throws W → api_detects W config repo t = false →
   length (probe_calls W config repo t) = 1%nat).
Proof.
  unfold probe_calls.
  destruct (api_detects W config repo t); [split; [cbn; lia | discriminate] |].
  pose proof (eq_refl (probe_outcome W config repo t)) as E.
  unfold probe_outcome at 2 in E.
  destruct (probe_outcome W config repo t); (split; [cbn; lia |]);
    intros [_ Hhead] _; [symmetry in E; now apply Hhead in E | reflexivity ..].
Qed.

Lemma tier_calls_length (W : World) (config : Config) (repo : Repo.t)
    (t : Trace) :
  let here := api_calls W config repo t ++ probe_calls W config repo t in
  (length here ≤ 2)%nat ∧
  (has_credential config = false → (length here ≤ 1)%nat) ∧
  (never_throws W →
   (1 ≤ length here)%nat ∧
   (has_credential config = false → length here = 1%nat)).
Proof.
  cbn zeta. rewrite length_app.
  destruct (api_calls_length W config repo t) as (Ha & Hbare & Hdetects).
  destruct (probe_calls_length W config repo t) as (Hp & Hasked).
  split; [lia | split].
  - intros Hc. rewrite (Hbare Hc). cbn. lia.
  - intros Hnever. split.
    + destruct (api_detects W config repo t);
        [rewrite Hdetects by reflexivity | rewrite Hasked by auto]; lia.
    + intros Hc. rewrite (Hbare Hc). cbn [length Nat.add].
      apply Hasked; [exact Hnever |].
      unfold api_detects. now rewrite Hc.
Qed.

Lemma loop_calls_length (W : World) (config : Config) (repos : list Repo.t) :
  ∀ t,
    (length (loop_calls W config repos t)
     ≤ 2 * length (passing config repos))%nat ∧
    (has_credential config = false →
     (length (loop_calls W config repos t)
      ≤ length (passing config repos))%nat) ∧
    (never_throws W →
     (length (passing config repos)
      ≤ length (loop_calls W config repos t))%nat ∧
     (has_credential config = false →
      length (loop_calls W config repos t) = length (passing config repos))).
Proof.
  induction repos as [|repo rest IH]; intros t;
    cbn [loop_calls passing List.filter];
    [cbn; split; [lia | split; [lia | split; [lia | reflexivity]]] |].
  fold (passing config rest).
  destruct (main_skips config repo); cbn [negb]; [apply IH |].
  cbn zeta. rewrite length_app. cbn [length].
  destruct (tier_calls_length W config repo t) as (Hh2 & Hh1 & Hh).
  cbn zeta in Hh2, Hh1, Hh.
  set (here := api_calls W config repo t ++ probe_calls W config repo t) in *.
  destruct (IH (t ++ here)) as (Hupper & Hbare & Hexact).
  split; [lia | split].
  - intros Hc. specialize (Hh1 Hc). specialize (Hbare Hc). lia.
  - intros Hnever. destruct (Hh Hnever) as [Hlow Hone].
    destruct (Hexact Hnever) as [Hlow' Hone'].
    split; [lia |]. intros Hc. rewrite (Hone Hc), (Hone' Hc). reflexivity.
Qed.

Lemma requests_app (t1 t2 : Trace) :
  requests (t1 ++ t2) = requests t1 ++ requests t2.
Proof. apply flat_map_app. Qed.

Lemma requests_length (t : Trace) :
  Forall is_request t → length (requests t) = length t.
Proof.
  unfold requests.
  induction 1 as [|[r|d|p c] t He _ IH]; cbn; try now destruct He.
  - reflexivity.
  - now rewrite IH.
Qed.

Lemma requests_of_run (W : World) (config : Config) :
  length (requests (fst (main W config))) =
  length (fst (main_projects W config [])).
Proof.
  destruct (main_shape W config) as (t & result & tail & Hrun & Htrace & Hcases).
  rewrite Htrace, Hrun, requests_app, length_app. cbn [fst].
  rewrite requests_length by (eapply main_projects_requests, Hrun).
  destruct Hcases as [(-> & _) | [(ps & _ & _ & _ & ->)
    | [(ps & _ & _ & _ & ->) | (ps & _ & _ & _ & ->)]]]; cbn; lia.
Qed.

(** X7: a run sends the list request at most once.  When the list fetch
    gives [repos], the run sends the list request and, for every record that
    passes the filter, at most two further requests (at most one without a
    token); records the filter rejects cost no request.  When [https.get]
    accepts every request, each passing record costs at least one request
    (exactly one without a token).  A run whose list fetch gives no array
    sends at most the list request. *)
Theorem main_request_count (W : World) (config : Config) :
  let sent := length (requests (fst (main W config))) in
  (∀ repos, fetched W config repos →
     let n := length (passing config repos) in
     (1 ≤ sent ≤ 1 + 2 * n)%nat ∧
     (has_credential config = false → (sent ≤ 1 + n)%nat) ∧
     (never_throws W →
      (1 + n ≤ sent)%nat ∧
      (has_credential config = false → sent = (1 + n)%nat))) ∧
  ((∀ repos, ¬ fetched W config repos) →
     (sent ≤ 1)%nat ∧ (never_throws W → sent = 1%nat)).
Proof.
  cbn zeta. rewrite requests_of_run. split.
  - intros repos Hfetch.
    rewrite (main_projects_fetched W config repos Hfetch). cbn [fst app length].
    destruct (loop_calls_length W config repos [Requested (list_request config)])
      as (Hupper & Hbare & Hexact).
    split; [lia | split].
    + intros Hc. specialize (Hbare Hc). lia.
    + intros Hnever. destruct (Hexact Hnever) as [Hlow Hone].
      split; [lia |]. intros Hc. now rewrite (Hone Hc).
  - intros Hnone.
    destruct (main_projects_trace W config)
      as [([e Hthrows] & Ht & _) | (calls & Ht & [-> | Hsome])].
    + rewrite Ht. split; [cbn; lia |]. intros [Hget _].
      now apply Hget in Hthrows.
    + rewrite Ht. split; [cbn; lia | reflexivity].
    + destruct Hsome as (repos & Hfetch & _). now destruct (Hnone repos).
Qed.

Lemma main_request_count_witness :
  length (requests (fst (main (Sample.world Sample.repos) Sample.config))) =
    4%nat ∧
  length (requests (fst (main Sample.rate_limited Sample.config))) = 1%nat.
Proof.
  destruct (main_request_count (Sample.world Sample.repos) Sample.config)
    as (Hfetched & _).
  destruct (main_request_count Sample.rate_limited Sample.config)
    as (_ & Hfailed).
  split.
  - destruct (Hfetched Sample.repos) as (_ & _ & Hnever).
    + exists 200, "[...]". split; [reflexivity | lia].
    + destruct Hnever as [_ Hone]; [ | now apply Hone].
      split; intros t r e; cbn; destruct (String.eqb _ _); discriminate.
  - destruct Hfailed as [_ Hone].
    + intros repos (status & data & Hget & Hstatus).
      vm_compute in Hget. injection Hget as <- _. lia.
    + apply Hone. split; intros t r e; cbn; discriminate.
Defined.

(** ** Which records a run lists *)

Lemma loop_kept_confirmed (W : World) (config : Config) (repo : Repo.t)
    (repos : list Repo.t) :
  repo ∈ repos → main_skips config repo = false →
  (∀ t, confirmed_at W config repo t = true) →
  ∀ t, repo ∈ loop_kept W config repos t.
Proof.
  intros Hin Hpass Hconf.
  induction repos as [|r rest IH]; intros t; [now apply elem_of_nil in Hin |].
  cbn [loop_kept]. apply elem_of_cons in Hin as [<- | Hin].
  - rewrite Hpass, Hconf. now left.
  - destruct (main_skips config r); [now apply IH |].
    cbn zeta. destruct (confirmed_at W config r t);
      [right |]; now apply IH.
Qed.

Lemma map_elem_of {A B} (f : A → B) (x : A) (l : list A) :
  x ∈ l → f x ∈ map f l.
Proof. induction 1; cbn; now constructor. Qed.

Lemma map_elem_of_inv {A B} (f : A → B) (y : B) (l : list A) :
  y ∈ map f l → ∃ x, x ∈ l ∧ y = f x.
Proof.
  induction l as [|a l IH]; cbn; intros Hin;
    [now apply elem_of_nil in Hin |].
  apply elem_of_cons in Hin as [-> | Hin].
  - exists a. split; [now left | reflexivity].
  - destruct (IH Hin) as (x & Hx & ->). exists x. split; [now right | reflexivity].
Qed.

Lemma pattern_confirms (W : World) (config : Config) (repo : Repo.t) :
  likelyHasPages repo = true → ∀ t, confirmed_at W config repo t = true.
Proof.
  intros Hpattern t. unfold confirmed_at. rewrite Hpattern.
  now destruct (api_detects W config repo t), (probe_detects W config repo t).
Qed.

Lemma output_lists_confirmed (W : World) (config : Config)
    (repos : list Repo.t) (repo : Repo.t) :
  fetched W config repos → repo ∈ repos → ¬ spec_rejects config repo →
  (∀ t, confirmed_at W config repo t = true) →
  ∃ ps, output_of W config ps ∧ formatProjectData config repo ∈ ps.
Proof.
  intros Hfetch Hin Hpass Hall.
  assert (main_skips config repo = false) as Hskip.
  { destruct (main_skips config repo) eqn:E; [ | reflexivity].
    apply main_skips_iff in E. now destruct Hpass. }
  eexists. split.
  - eexists. apply (main_projects_fetched W config repos Hfetch).
  - rewrite sort_engine_Permutation. apply map_elem_of.
    now apply loop_kept_confirmed.
Qed.

(** X8: the pattern tier is a true fallback.  A fetched record that passes
    the filter and whose name matches a pattern is listed in the output
    whatever the network answers; so is every record that passes the filter
    and that the tiers confirm whenever they are asked. *)
Theorem main_lists_confirmed (W : World) (config : Config)
    (repos : list Repo.t) (repo : Repo.t) :
  fetched W config repos → repo ∈ repos → ¬ spec_rejects config repo →
  (likelyHasPages repo = true ∨ ∀ t, confirmed_at W config repo t = true) →
  ∃ ps, output_of W config ps ∧ formatProjectData config repo ∈ ps.
Proof.
  intros Hfetch Hin Hpass [Hpattern | Hall];
    apply (output_lists_confirmed W config repos repo); auto.
  now apply pattern_confirms.
Qed.

Lemma main_lists_confirmed_witness :
  ∃ ps, output_of (Sample.world Sample.repos) Sample.config ps ∧
        formatProjectData Sample.config Sample.foo_docs ∈ ps.
Proof.
  apply (main_lists_confirmed (Sample.world Sample.repos) Sample.config
           Sample.repos Sample.foo_docs).
  - exists 200, "[...]". split; [reflexivity | lia].
  - repeat constructor.
  - intros Hrej. apply main_skips_iff in Hrej. discriminate Hrej.
  - left. reflexivity.
Defined.

Lemma loop_kept_sound (W : World) (config : Config) (repos : list Repo.t)
    (repo : Repo.t) :
  ∀ t, repo ∈ loop_kept W config repos t →
       repo ∈ repos ∧ main_skips config repo = false ∧
       ∃ t', confirmed_at W config repo t' = true.
Proof.
  induction repos as [|r rest IH]; intros t Hin; cbn [loop_kept] in Hin;
    [now apply elem_of_nil in Hin |].
  destruct (main_skips config r) eqn:Hskip.
  - destruct (IH _ Hin) as (Hrest & H). split; [now right | exact H].
  - cbn zeta in Hin. destruct (confirmed_at W config r t) eqn:Hconf.
    + apply elem_of_cons in Hin as [-> | Hin].
      * split; [now left | eauto].
      * destruct (IH _ Hin) as (Hrest & H). split; [now right | exact H].
    + destruct (IH _ Hin) as (Hrest & H). split; [now right | exact H].
Qed.

Lemma NoDup_map_inj {A B} (f : A → B) (l : list A) (x y : A) :
  NoDup (map f l) → x ∈ l → y ∈ l → f x = f y → x = y.
Proof.
  induction l as [|a l IH]; cbn; intros Hnd Hx Hy Hxy;
    [now apply elem_of_nil in Hx |].
  apply NoDup_cons in Hnd as [Ha Hnd].
  apply elem_of_cons in Hx as [-> | Hx], Hy as [-> | Hy]; auto.
  - destruct Ha. rewrite Hxy. now apply map_elem_of.
  - destruct Ha. rewrite <- Hxy. now apply map_elem_of.
Qed.

(** Every output record is the formatted form of a fetched record that
    passed the filter and was confirmed. *)
Lemma output_sources (W : World) (config : Config) (repos : list Repo.t)
    (ps : list Project.t) (p : Project.t) :
  fetched W config repos → output_of W config ps → p ∈ ps →
  ∃ repo, repo ∈ repos ∧ p = formatProjectData config repo ∧
          main_skips config repo = false ∧
          ∃ t, confirmed_at W config repo t = true.
Proof.
  intros Hfetch [t Hrun] Hp.
  rewrite (main_projects_fetched W config repos Hfetch) in Hrun.
  injection Hrun as _ <-. rewrite sort_engine_Permutation in Hp.
  apply map_elem_of_inv in Hp as (repo & Hkept & ->).
  apply loop_kept_sound in Hkept as (Hin & Hskip & Hconf).
  exists repo. auto.
Qed.

(** X9: where the names of the fetched records are unique, a fetched record
    that the filter rejects, or that no tier ever confirms, has no record of
    its name in the output, whatever else the run does. *)
Theorem main_never_lists_rejected (W : World) (config : Config)
    (repos : list Repo.t) (repo : Repo.t) (ps : list Project.t) :
  fetched W config repos → NoDup (map Repo.name repos) → repo ∈ repos →
  (spec_rejects config repo ∨ ∀ t, confirmed_at W config repo t = false) →
  output_of W config ps →
  ∀ p, p ∈ ps → Project.name p ≠ Repo.name repo.
Proof.
  intros Hfetch Hnames Hin Hout Hrun p Hp Hname.
  destruct (output_sources W config repos ps p Hfetch Hrun Hp)
    as (source & Hsource & -> & Hskip & t & Hconf).
  assert (source = repo) as ->
    by (apply (NoDup_map_inj Repo.name repos); assumption).
  destruct Hout as [Hrej | Hnever].
  - apply main_skips_iff in Hrej. congruence.
  - rewrite Hnever in Hconf. discriminate Hconf.
Qed.

Lemma main_never_lists_rejected_witness :
  Forall (fun p => Project.name p ≠ "bar") Sample.snapshot.
Proof.
  apply Forall_forall.
  apply (main_never_lists_rejected (Sample.world Sample.repos) Sample.config
           Sample.repos Sample.archived_bar Sample.snapshot).
  - exists 200, "[...]". split; [reflexivity | lia].
  - repeat constructor; vm_compute;
      intros H; repeat (apply elem_of_cons in H as [H | H]; [discriminate H |]);
      now apply elem_of_nil in H.
  - repeat constructor.
  - left. right. left. split; reflexivity.
  - exists (fst (main_projects (Sample.world Sample.repos) Sample.config [])).
    vm_compute. reflexivity.
Defined.

(** X10: a record named exactly [{account}.github.io] that is fetched and
    passes the filter is always listed, with the account's root URL,
    whatever the network answers. *)
Theorem main_lists_account_site (W : World) (config : Config)
    (repos : list Repo.t) (repo : Repo.t) :
  fetched W config repos → repo ∈ repos → ¬ spec_rejects config repo →
  Repo.name repo = username config +:+ ".github.io" →
  ∃ ps p, output_of W config ps ∧ p ∈ ps ∧
          Project.name p = Repo.name repo ∧
          Project.url p = root_url config.
Proof.
  intros Hfetch Hin Hpass Hname.
  assert (likelyHasPages repo = true) as Hpattern.
  { apply likelyHasPages_unfold. unfold pagesPatterns. left.
    exists (username config). exact Hname. }
  destruct (output_lists_confirmed W config repos repo Hfetch Hin Hpass
              (pattern_confirms W config repo Hpattern)) as (ps & Hout & Hp).
  exists ps, (formatProjectData config repo).
  repeat split; try assumption.
  cbn [formatProjectData Project.url]. now rewrite Hname, includes_self.
Qed.

Lemma main_lists_account_site_witness :
  ∃ ps p, output_of (Sample.world Sample.repos) Sample.config ps ∧ p ∈ ps ∧
          Project.name p = "Chriszhang6.github.io" ∧
          Project.url p = "https://Chriszhang6.github.io/".
Proof.
  apply (main_lists_account_site (Sample.world Sample.repos) Sample.config
           Sample.repos Sample.root_site).
  - exists 200, "[...]". split; [reflexivity | lia].
  - repeat constructor.
  - intros Hrej. apply main_skips_iff in Hrej. discriminate Hrej.
  - reflexivity.
Defined.

(** ** The order of the output *)

(** X12: where the timestamps are valid instants, the output is the stable
    sorted arrangement of the formatted records the loop kept: records that
    tie on star count and on the instant of their update stay in the order of
    the fetched list. *)
Theorem output_stable (W : World) (config : Config) (ps : list Project.t) :
  output_of W config ps → valid_instants W ps →
  ∃ repos kept,
    fetched W config repos ∧ kept `sublist_of` repos ∧
    stable_sort_of (main_compare W) (map (formatProjectData config) kept) ps.
Proof.
  intros Hout Hvalid.
  destruct (main_projects_ok W config ps Hout)
    as (repos & kept & Hfetch & Hsub & _ & ->).
  pose proof (main_sort_valid_inv W _ Hvalid) as Hkept.
  rewrite (main_sort_valid W _ Hkept).
  exists repos, kept. repeat split; try assumption.
  - apply sort_Permutation.
  - apply sort_Sorted, main_compare_asym.
  - apply (main_sort_unique W _ _ Hkept). reflexivity.
Qed.

Lemma output_stable_witness :
  ∃ repos kept,
    fetched (Sample.world Scenario.tied) Sample.config repos ∧
    kept `sublist_of` repos ∧
    stable_sort_of (main_compare (Sample.world Scenario.tied))
      (map (formatProjectData Sample.config) kept)
      (map (formatProjectData Sample.config)
         [ Sample.repo "z-site" 5 "2024-01-02T00:00:00Z";
           Sample.repo "x-site" 2 "2024-01-01T00:00:00Z";
           Sample.repo "y-site" 2 "2024-01-01T00:00:00Z" ]).
Proof.
  apply (output_stable (Sample.world Scenario.tied) Sample.config).
  - exists (fst (main_projects (Sample.world Scenario.tied) Sample.config [])).
    vm_compute. reflexivity.
  - repeat constructor; vm_compute; discriminate.
Defined.

(** ** The URL of the formatter and the URL of the probe *)

Lemma append_neq_self (a b : string) : b ≠ EmptyString → a +:+ b ≠ a.
Proof.
  intros Hb. induction a as [|c a IH]; cbn.
  - exact Hb.
  - intros [= H]. now apply IH.
Qed.

(** X13: the URL the formatter publishes for a record is the URL the direct
    probe requests for it exactly when the name does not contain
    [{account}.github.io]; for a name that contains it the formatter
    publishes the root URL, which the probe did not request. *)
Theorem formatProjectData_url_vs_probe (config : Config) (repo : Repo.t) :
  Project.url (formatProjectData config repo) =
    req_url (probe_request config (Repo.name repo)) ↔
  ¬ contains (username config +:+ ".github.io") (Repo.name repo).
Proof.
  cbn [formatProjectData Project.url probe_request req_url].
  destruct (includes (Repo.name repo) (username config +:+ ".github.io"))
    eqn:Hinc.
  - apply includes_spec in Hinc. split; [ | intros Hnot; now destruct Hnot].
    intros Heq. exfalso.
    rewrite root_url_with_name in Heq. symmetry in Heq.
    fold (root_url config) in Heq. revert Heq.
    apply append_neq_self. now destruct (Repo.name repo).
  - split; [ | reflexivity]. intros _ Hc.
    apply includes_spec in Hc. congruence.
Qed.

(** ** The configuration *)

Lemma or_string_cases (value : option string) (fallback : string) :
  (absent_or_empty value ∧ Env.or_string value fallback = fallback) ∨
  (∃ s, value = Some s ∧ s ≠ EmptyString ∧ Env.or_string value fallback = s).
Proof.
  unfold Env.or_string, JS.or, absent_or_empty.
  destruct value as [[|c s]|]; cbn; eauto.
Qed.

Lemma not_false_iff (value : option string) :
  Env.not_false value = false ↔ value = Some "false".
Proof.
  unfold Env.not_false. destruct value as [s|]; [ | easy].
  destruct (String.eqb_spec s "false") as [->|Hne]; cbn; [easy |].
  split; [discriminate | congruence].
Qed.

(** X14: the configuration read from the environment.  The account name is
    never empty: an unset or empty [GITHUB_USERNAME] gives [Chriszhang6].  A
    token is configured exactly when [GITHUB_TOKEN] is set and not empty.  A
    filter is switched off only by the exact value [false] of its variable;
    any other value, and no value, leaves it on.  When [MIN_STARS] does not
    parse to a number, no record is rejected for its star count. *)
Theorem config_from_environment (P : Env.Process) :
  let c := Env.config P in
  username c ≠ EmptyString ∧
  (absent_or_empty (Env.env P "GITHUB_USERNAME") → username c = "Chriszhang6") ∧
  (has_credential c = true ↔
   ∃ s, Env.env P "GITHUB_TOKEN" = Some s ∧ s ≠ EmptyString) ∧
  (filterForks c = false ↔ Env.env P "FILTER_FORKS" = Some "false") ∧
  (filterArchived c = false ↔ Env.env P "FILTER_ARCHIVED" = Some "false") ∧
  (absent_or_empty (Env.env P "MIN_STARS") →
   minStars c = Env.parseInt10 P "0") ∧
  (minStars c = NaN →
   ∀ repo, main_skips c repo = true ↔
           (filterForks c = true ∧ Repo.fork repo = true) ∨
           (filterArchived c = true ∧ Repo.archived repo = true)).
Proof.
  cbn zeta.
  split; [ | split; [ | split; [ | split; [ | split; [ | split]]]]].
  - cbn [Env.config username].
    destruct (or_string_cases (Env.env P "GITHUB_USERNAME") "Chriszhang6")
      as [[_ ->] | (s & _ & Hs & ->)]; [discriminate | exact Hs].
  - intros Habsent. cbn [Env.config username].
    destruct (or_string_cases (Env.env P "GITHUB_USERNAME") "Chriszhang6")
      as [[_ ->] | (s & Hset & Hs & _)]; [reflexivity |].
    destruct Habsent as [H | H]; rewrite H in Hset; congruence.
  - unfold has_credential. cbn [Env.config token].
    destruct (or_string_cases (Env.env P "GITHUB_TOKEN") EmptyString)
      as [[[H | H] ->] | (s & Hset & Hs & ->)].
    + split; [discriminate | intros (s & Hset & Hs); congruence].
    + split; [discriminate | intros (s & Hset & Hs); congruence].
    + split; [eauto | intros _; now destruct s].
  - apply not_false_iff.
  - apply not_false_iff.
  - intros Habsent. cbn [Env.config minStars].
    destruct (or_string_cases (Env.env P "MIN_STARS") "0")
      as [[_ ->] | (s & Hset & Hs & _)]; [reflexivity |].
    destruct Habsent as [H | H]; rewrite H in Hset; congruence.
  - intros Hnan repo. rewrite main_skips_iff. unfold spec_rejects.
    rewrite Hnan. split.
    + intros [Hf | [Ha | (m & Hm & _)]];
        [now left | now right | discriminate].
    + intros [Hf | Ha]; [now left | right; now left].
Qed.

Lemma config_from_environment_witness :
  username (Env.config Scenario.bare) = "Chriszhang6" ∧
  minStars (Env.config Scenario.bare) = Num 0 ∧
  (∀ repo, main_skips (Env.config Scenario.customised) repo = true ↔
           (filterForks (Env.config Scenario.customised) = true ∧
            Repo.fork repo = true) ∨
           (filterArchived (Env.config Scenario.customised) = true ∧
            Repo.archived repo = true)).
Proof.
  destruct (config_from_environment Scenario.bare)
    as (_ & Hname & _ & _ & _ & Hstars & _).
  destruct (config_from_environment Scenario.customised)
    as (_ & _ & _ & _ & _ & _ & Hnan).
  split; [ | split].
  - apply Hname. left. reflexivity.
  - apply Hstars. left. reflexivity.
  - apply Hnan. reflexivity.
Defined.

(** ** Failures of the per-repository checks *)

(** X15: no answer of the Pages endpoint or of a probe aborts a run: when
    the list fetch gives an array and the file system accepts the write, the
    run exits with status 0 and ends by writing the output collection,
    whatever the per-repository calls return. *)
Theorem main_survives_check_failures (W : World) (config : Config)
    (repos : list Repo.t) :
  fetched W config repos → fs_accepts W →
  snd (main W config) = 0 ∧
  ∃ ps, output_of W config ps ∧
        last (fst (main W config)) =
          Some (WroteFile (path_resolve W (outputFile config))
                  (JSON.stringify ps)).
Proof.
  intros Hfetch Hacc.
  pose proof (main_projects_fetched W config repos Hfetch) as Hrun.
  cbn zeta in Hrun. rewrite main_unfold, Hrun.
  match goal with
  | |- context [main_write W config ?ps ?t] =>
      destruct (main_write_cases W config ps t)
        as (t' & result & -> & [[-> Hlast] | [_ [Hrefuse _]]]);
        [ | now destruct Hrefuse];
      split; [reflexivity |]; exists ps; split; [now exists t | exact Hlast]
  end.
Qed.

Lemma main_survives_check_failures_witness :
  snd (main (Scenario.with_api Sample.repos) Sample.config_with_token) = 0 ∧
  ∃ ps, output_of (Scenario.with_api Sample.repos) Sample.config_with_token ps ∧
        last (fst (main (Scenario.with_api Sample.repos)
                     Sample.config_with_token)) =
          Some (WroteFile "/work/projects.json" (JSON.stringify ps)).
Proof.
  apply (main_survives_check_failures (Scenario.with_api Sample.repos)
           Sample.config_with_token Sample.repos).
  - exists 200, "[...]". split; [reflexivity | lia].
  - split; reflexivity.
Defined.

Lemma loop_kept_offline (W : World) (config : Config) (repos : list Repo.t) :
  has_credential config = false →
  (∀ t req, probe_existsb (https_head W t req) = false) →
  ∀ t, loop_kept W config repos t =
       List.filter (fun repo => likelyHasPages repo) (passing config repos).
Proof.
  intros Hc Hprobe. unfold passing.
  induction repos as [|repo rest IH]; intros t; cbn [loop_kept List.filter];
    [reflexivity |].
  destruct (main_skips config repo); cbn [negb]; [apply IH |].
  cbn zeta. cbn [List.filter].
  assert (confirmed_at W config repo t = likelyHasPages repo) as ->.
  { unfold confirmed_at, probe_detects, probe_outcome, api_detects.
    now rewrite Hc, Hprobe. }
  destruct (likelyHasPages repo); now rewrite IH.
Qed.

(** X16: without a token and with every probe failing (other status,
    error, timeout, or a request that [https.get] refuses), the output
    holds exactly the formatted records of the fetched records that pass the
    filter and whose name matches a pattern; where its timestamps are valid
    instants it is the stable sorted arrangement of these records, taken in
    the order of the fetched list. *)
Theorem main_offline_output (W : World) (config : Config)
    (repos : list Repo.t) (ps : list Project.t) :
  has_credential config = false →
  (∀ t req, probe_existsb (https_head W t req) = false) →
  fetched W config repos → output_of W config ps →
  let matching :=
    map (formatProjectData config)
      (List.filter (fun repo => likelyHasPages repo) (passing config repos)) in
  ps ≡ₚ matching ∧
  (valid_instants W ps → stable_sort_of (main_compare W) matching ps).
Proof.
  intros Hc Hprobe Hfetch [t Hrun]. cbn zeta.
  rewrite (main_projects_fetched W config repos Hfetch) in Hrun.
  injection Hrun as _ <-. rewrite loop_kept_offline by assumption.
  split; [apply sort_engine_Permutation |].
  intros Hvalid.
  pose proof (main_sort_valid_inv W _ Hvalid) as Hgiven.
  rewrite (main_sort_valid W _ Hgiven).
  now apply (main_sort_unique W _ _ Hgiven).
Qed.

Lemma main_offline_output_witness :
  let W := Scenario.with_api Scenario.tied in
  let ps :=
    map (formatProjectData Sample.config)
      [ Sample.repo "z-site" 5 "2024-01-02T00:00:00Z";
        Sample.repo "x-site" 2 "2024-01-01T00:00:00Z";
        Sample.repo "y-site" 2 "2024-01-01T00:00:00Z" ] in
  let matching :=
    map (formatProjectData Sample.config)
      (List.filter (fun repo => likelyHasPages repo)
         (passing Sample.config Scenario.tied)) in
  ps ≡ₚ matching ∧
  (valid_instants W ps → stable_sort_of (main_compare W) matching ps).
Proof.
  apply (main_offline_output (Scenario.with_api Scenario.tied)
           Sample.config Scenario.tied).
  - reflexivity.
  - intros t req. reflexivity.
  - exists 200, "[...]". split; [reflexivity | lia].
  - exists (fst (main_projects (Scenario.with_api Scenario.tied)
                   Sample.config [])).
    vm_compute. reflexivity.
Defined.
